(** * Browsing for DNS-SD service instances: a model of [browse.go]

  The development embeds [lookupType] of package [dnssd]: the select loop
  that owns the record cache and the slice [es] of announced entries, the
  known-answer filter run before each query, the two reconciliation passes
  run after each inbound message, and the goroutine that schedules the
  queries.  Collaborators declared in other files of the package (the
  cache, the connection, the interface enumeration, the record conversion
  [PTR]) are the members of the class [Package]. *)

From Stdlib Require Import ZArith List String Bool Lia Permutation.
Import ListNotations.

Local Open Scope Z_scope.

(** ** Go machine integers

    [int] and [time.Duration] are taken at 64 bits. *)

Module GoInt.

Definition minInt64 : Z := - 2 ^ 63.
Definition maxInt64 : Z := 2 ^ 63 - 1.

(** Two's-complement wrap-around of a 64-bit signed result. *)
Definition wrap64 (z : Z) : Z := (z + 2 ^ 63) mod 2 ^ 64 - 2 ^ 63.

Definition add64 (a b : Z) : Z := wrap64 (a + b).
Definition mul64 (a b : Z) : Z := wrap64 (a * b).

(** [x << n] on int64.  A negative count panics at run time ([None]); a
    count of 64 or more shifts every bit out. *)
Definition shl64 (x n : Z) : option Z :=
  if n <? 0 then None
  else if 64 <=? n then Some 0
  else Some (wrap64 (Z.shiftl x n)).

(** Go's [/] on integers truncates toward zero. *)
Definition div64 (a b : Z) : Z := wrap64 (Z.quot a b).

Definition inRange (z : Z) : Prop := minInt64 <= z <= maxInt64.

End GoInt.

(** ** Package [time]: durations are int64 nanosecond counts *)

Module GoTime.
Import GoInt.

Definition Nanosecond : Z := 1.
Definition Microsecond : Z := 1000 * Nanosecond.
Definition Millisecond : Z := 1000 * Microsecond.
Definition Second : Z := 1000 * Millisecond.
Definition Minute : Z := 60 * Second.
Definition Hour : Z := 60 * Minute.

(** An instant, as nanoseconds on the clock [time.Now] reads. *)
Definition Time := Z.

(** [t.Sub(u)]: the difference, clamped to the representable durations. *)
Definition Sub (t u : Time) : Z :=
  Z.max minInt64 (Z.min maxInt64 (t - u)).

(** [time.Until(t)] is [t.Sub(time.Now())]; the clock reading is explicit. *)
Definition Until (now t : Time) : Z := Sub t now.

End GoTime.

(** ** The query scheduler's arithmetic (browse.go:105-122) *)

Module Backoff.
Import GoInt GoTime.

(** [time.Duration(rand.Intn(100)+20) * time.Millisecond], for the value
    [r] that [rand.Intn(100)] returned. *)
Definition jitter (r : Z) : Z := mul64 (add64 r 20) Millisecond.

(** [rand.Intn(n)] returns some [r] with [0 <= r < n]. *)
Definition Intn (n r : Z) : Prop := 0 <= r < n.

(** Lines 114-122: the interval is recomputed only while it is below one
    hour; [None] is the run-time panic of a negative shift count. *)
Definition nextInterval (interval counter : Z) : option Z :=
  if interval <? Hour then
    match shl64 1 counter with
    | None => None
    | Some p =>
        let interval' := mul64 p Second in
        if (Hour <=? interval') || (interval' <? 0) then Some Hour
        else Some interval'
    end
  else Some interval.

(** The loop variables of the continuous branch. *)
Record Loop := mkLoop { counter : Z; interval : Z }.

(** Lines 109-110. *)
Definition loop0 : Loop := mkLoop 0 (0 (* time.Duration(0) *)).

(** After [query()] returned: the loop variables the select waits with. *)
Definition afterQuery (l : Loop) : option Loop :=
  match nextInterval (interval l) (counter l) with
  | None => None
  | Some i => Some (mkLoop (counter l) i)
  end.

(** Line 126, once [time.After(interval)] has fired. *)
Definition afterTimer (l : Loop) : Loop :=
  mkLoop (add64 (counter l) 1) (interval l).

(** The delays waited after each of the next [n] ticks, from the loop
    variables [l] with which a tick starts. *)
Fixpoint delays (n : nat) (l : Loop) : option (list Z) :=
  match n with
  | O => Some []
  | S n' =>
      match afterQuery l with
      | None => None
      | Some l1 =>
          match delays n' (afterTimer l1) with
          | None => None
          | Some ds => Some (interval l1 :: ds)
          end
      end
  end.

(** The delay between tick [k] and tick [k+1], for [k >= 1]. *)
Definition delayAfterTick (k : nat) : option Z :=
  match delays k loop0 with
  | Some ds => nth_error ds (pred k)
  | None => None
  end.

(** The delay the spec gives for the wait after tick [j+1]:
    [min(2^j seconds, 1 hour)]. *)
Definition capped (j : nat) : Z := Z.min (2 ^ Z.of_nat j * Second) Hour.

End Backoff.

(** ** The data model *)

(** [net.IP] is a byte slice. *)
Module net.

Definition IP := list Byte.byte.

End net.

(** The record the cache hands out.  Its declaration is in another file of
    the package; the fields are the ones [lookupType] reads.  [ifaceIPs] is
    a Go map: the list holds its entries in the order a [range] statement
    visits them, which Go leaves unspecified. *)
Module Service.

Record t := mk {
  Name : string;
  Type_ : string;
  Domain : string;
  Host : string;
  Port : Z;
  ifaceIPs : list (string * list net.IP);
  Text : list (string * string);
  TTL : Z;
  expiration : GoTime.Time
}.

(** Modelled from the spec: the method [ServiceInstanceName] of the cache's
    record is declared outside browse.go.  The spec compares an entry with a
    record by their fully-qualified instance name, built from the identity
    (instance name, service type, domain) in the form browse.go:65-67
    documents: [<instance name>.<service>.<domain>.] *)
Definition ServiceInstanceName (s : t) : string :=
  (Name s ++ "." ++ Type_ s ++ "." ++ Domain s ++ ".")%string.

End Service.

(** browse.go:14-24. *)
Module BrowseEntry.

Record t := mk {
  IPs : list net.IP;
  Host : string;
  Port : Z;
  IfaceName : string;
  Name : string;
  Type_ : string;
  Domain : string;
  Text : list (string * string)
}.

(** browse.go:74-76, [fmt.Sprintf("%s.%s.%s.", e.Name, e.Type, e.Domain)]. *)
Definition ServiceInstanceName (e : t) : string :=
  (Name e ++ "." ++ Type_ e ++ "." ++ Domain e ++ ".")%string.

(** The pair the addition pass compares entries by (line 169). *)
Definition key (e : t) : string * string := (Name e, IfaceName e).

End BrowseEntry.

(** The part of [github.com/miekg/dns] the loop touches. *)
Module dns.

Definition TypePTR : Z := 12.
Definition ClassINET : Z := 1.

Record Question := mkQuestion { Name : string; Qtype : Z; Qclass : Z }.

Record Msg (RR : Type) := mkMsg {
  Msg_Question : list Question;
  Msg_Answer : list RR
}.
Arguments mkMsg {RR}.
Arguments Msg_Question {RR}.
Arguments Msg_Answer {RR}.

(** [m.Copy()] is a deep copy; on values it is the identity. *)
Definition Copy {RR : Type} (m : Msg RR) : Msg RR := m.

End dns.

(** ** Collaborators *)

(** What [lookupType] uses and browse.go does not declare: the cache with
    its two methods, the record's [ServiceName], the conversion [PTR], the
    interface enumeration, and the types they work on. *)
Class Package := {
  Cache : Type;
  Request : Type;
  RR : Type;
  Interface : Type;
  error : Type;
  NewCache : Cache;
  UpdateFrom : Cache -> Request -> Cache;
  Services : Cache -> list Service.t;
  ServiceName : Service.t -> string;
  PTR : Service.t -> RR;
  MulticastInterfaces : list string -> list Interface
}.

(** ** The select loop of [lookupType] (browse.go:137-212) *)

Section Orchestrator.

Context {P : Package}.

(** [Query], as line 100 builds it. *)
Record Query := mkQuery { msg : dns.Msg RR; iface : Interface }.

(** Lines 81-88. *)
Definition question (service : string) : dns.Msg RR :=
  dns.mkMsg [dns.mkQuestion service dns.TypePTR dns.ClassINET] [].

(** What the loop does to the world outside its two variables. *)
Inductive Effect :=
| LogSendBrowsingQuery (q : Query)
| SendQuery (q : Query)
| LogSendQueryErr (err : error)
| LogReceiveMessage (req : Request)
| CallAdd (e : BrowseEntry.t)
| CallRmv (e : BrowseEntry.t).

(** The three cases of the select.  A query comes with the clock reading at
    each record of the snapshot the filter visits and with what
    [conn.SendQuery] is going to return; [Done] carries the value of
    [ctx.Err()]. *)
Inductive Event :=
| RecvQuery (q : Query) (clock : nat -> GoTime.Time) (sendErr : option error)
| RecvMessage (req : Request)
| Done (err : error).

(** The variables the loop owns. *)
Record State := mkState { cache : Cache; es : list BrowseEntry.t }.

(** Lines 79 and 137. *)
Definition initial : State := mkState NewCache [].

(** *** Known-answer suppression (lines 143-153) *)

(** Line 149. *)
Definition fresh (now : GoTime.Time) (srv : Service.t) : bool :=
  GoTime.Until now (Service.expiration srv) >? GoInt.div64 (Service.TTL srv) 2.

(** The loop of lines 144-152 over the snapshot, each record paired with
    the clock reading at its turn. *)
Fixpoint knownAnswers (service : string)
  (visits : list (Service.t * GoTime.Time)) : list RR :=
  match visits with
  | [] => []
  | (srv, now) :: rest =>
      if negb (ServiceName srv =? service)%string then
        knownAnswers service rest
      else if fresh now srv then PTR srv :: knownAnswers service rest
      else knownAnswers service rest
  end.

(** The filter in the spec's words: the record's service name is the
    browsed one and [expiration - now > TTL/2], on unbounded integers. *)
Definition included (service : string) (v : Service.t * GoTime.Time) : bool :=
  (ServiceName (fst v) =? service)%string
  && (Service.expiration (fst v) - snd v >? Z.quot (Service.TTL (fst v)) 2).

Definition visit (clock : nat -> GoTime.Time) (svcs : list Service.t)
  : list (Service.t * GoTime.Time) :=
  combine svcs (map clock (seq 0 (List.length svcs))).

(** Line 153. *)
Definition setAnswer (q : Query) (answer : list RR) : Query :=
  mkQuery (dns.mkMsg (dns.Msg_Question (msg q)) answer) (iface q).

(** *** Reconciliation (lines 161-208) *)

(** Lines 167-173. *)
Definition announced (name ifaceName : string) (es : list BrowseEntry.t) : bool :=
  existsb (fun e => (BrowseEntry.Name e =? name)%string
                    && (BrowseEntry.IfaceName e =? ifaceName)%string) es.

(** Lines 175-184. *)
Definition newEntry (srv : Service.t) (ifaceName : string) (ips : list net.IP)
  : BrowseEntry.t :=
  BrowseEntry.mk ips (Service.Host srv) (Service.Port srv) ifaceName
    (Service.Name srv) (Service.Type_ srv) (Service.Domain srv)
    (Service.Text srv).

(** Lines 166-188: the inner loop over one record's interfaces.  The state
    is the slice [es] and the calls made so far. *)
Fixpoint addIfaces (srv : Service.t) (ifs : list (string * list net.IP))
  (es : list BrowseEntry.t) (calls : list Effect)
  : list BrowseEntry.t * list Effect :=
  match ifs with
  | [] => (es, calls)
  | (ifaceName, ips) :: rest =>
      if announced (Service.Name srv) ifaceName es then
        addIfaces srv rest es calls
      else
        let e := newEntry srv ifaceName ips in
        addIfaces srv rest (es ++ [e]) (calls ++ [CallAdd e])
  end.

(** Lines 161-189. *)
Fixpoint additionPass (service : string) (svcs : list Service.t)
  (es : list BrowseEntry.t) (calls : list Effect)
  : list BrowseEntry.t * list Effect :=
  match svcs with
  | [] => (es, calls)
  | srv :: rest =>
      if negb (ServiceName srv =? service)%string then
        additionPass service rest es calls
      else
        let '(es', calls') := addIfaces srv (Service.ifaceIPs srv) es calls in
        additionPass service rest es' calls'
  end.

(** Lines 193-199. *)
Definition inSnapshot (svcs : list Service.t) (e : BrowseEntry.t) : bool :=
  existsb (fun srv => (Service.ServiceInstanceName srv
                       =? BrowseEntry.ServiceInstanceName e)%string) svcs.

(** Lines 191-207. *)
Fixpoint removalPass (svcs : list Service.t) (es tmp : list BrowseEntry.t)
  (calls : list Effect) : list BrowseEntry.t * list Effect :=
  match es with
  | [] => (tmp, calls)
  | e :: rest =>
      if inSnapshot svcs e then removalPass svcs rest (tmp ++ [e]) calls
      else removalPass svcs rest tmp (calls ++ [CallRmv e])
  end.

(** Lines 161-208 on one snapshot. *)
Definition reconcile (service : string) (svcs : list Service.t)
  (es : list BrowseEntry.t) : list BrowseEntry.t * list Effect :=
  let '(es1, calls1) := additionPass service svcs es [] in
  removalPass svcs es1 [] calls1.

(** *** One turn of the loop *)

Inductive Outcome :=
| Continue (st : State) (out : list Effect)
| Return (err : error).

Definition handle (service : string) (st : State) (ev : Event) : Outcome :=
  match ev with
  | RecvQuery q clock sendErr =>
      let answer := knownAnswers service (visit clock (Services (cache st))) in
      let q' := setAnswer q answer in
      Continue st
        ([LogSendBrowsingQuery q; SendQuery q']
           ++ match sendErr with
              | Some err => [LogSendQueryErr err]
              | None => []
              end)
  | RecvMessage req =>
      let cache' := UpdateFrom (cache st) req in
      let '(es', calls) := reconcile service (Services cache') (es st) in
      Continue (mkState cache' es') (LogReceiveMessage req :: calls)
  | Done err => Return err
  end.

(** The loop on a sequence of select outcomes: the state it reaches, what it
    did, and the value it returned if it did return. *)
Fixpoint lookupTypeLoop (service : string) (st : State) (evs : list Event)
  : State * list Effect * option error :=
  match evs with
  | [] => (st, [], None)
  | ev :: rest =>
      match handle service st ev with
      | Return err => (st, [], Some err)
      | Continue st' out =>
          let '(st'', out', r) := lookupTypeLoop service st' rest in
          (st'', out ++ out', r)
      end
  end.

(** The value of [ctx.Err()] at the first turn that takes line 209. *)
Fixpoint firstDone (evs : list Event) : option error :=
  match evs with
  | [] => None
  | Done err :: _ => Some err
  | _ :: rest => firstDone rest
  end.

(** The callbacks among the effects, in the order they were made. *)
Definition isCallback (x : Effect) : bool :=
  match x with
  | CallAdd _ | CallRmv _ => true
  | _ => false
  end.

Definition callbacks (out : list Effect) : list Effect := filter isCallback out.

(** The state the loop is in after some turns. *)
Definition stateAfter (service : string) (evs : list Event) : State :=
  fst (fst (lookupTypeLoop service initial evs)).

(** *** The reconciler in the spec's words *)

(** One candidate entry per record matching the browsed service and per
    interface that record has addresses on, in the order the loops of
    lines 161 and 166 meet them. *)
Definition candidates (service : string) (svcs : list Service.t)
  : list BrowseEntry.t :=
  flat_map
    (fun srv =>
       if (ServiceName srv =? service)%string
       then map (fun p => newEntry srv (fst p) (snd p)) (Service.ifaceIPs srv)
       else [])
    svcs.

(** The candidates whose (instance name, interface) pair is not announced
    yet, neither in [es] nor by a candidate met before. *)
Fixpoint unannounced (es cands : list BrowseEntry.t) : list BrowseEntry.t :=
  match cands with
  | [] => []
  | e :: rest =>
      if announced (BrowseEntry.Name e) (BrowseEntry.IfaceName e) es
      then unannounced es rest
      else e :: unannounced (es ++ [e]) rest
  end.

(** The entries whose fully-qualified instance name no record carries. *)
Definition gone (svcs : list Service.t) (es : list BrowseEntry.t)
  : list BrowseEntry.t :=
  filter (fun e => negb (inSnapshot svcs e)) es.

(** At most one entry per (instance name, interface). *)
Definition dedup (es : list BrowseEntry.t) : Prop :=
  NoDup (map BrowseEntry.key es).

End Orchestrator.

(** ** The scheduling goroutine (browse.go:96-135) *)

Section Scheduler.

Context {P : Package}.

(** Where the goroutine is suspended. *)
Inductive Point :=
| AtSleep (d : Z)
| AtSend (pending : list Interface)
| AtSelect
| Exited
| Panicked.

Record Sched := mkSched { point : Point; loop : Backoff.Loop }.

(** What resumes it: [time.Sleep] returns, the loop takes the query offered
    on [qs], [time.After] fires, or the select sees [ctx.Done()]. *)
Inductive Wake := Slept | Handed | TimerFired | SawDone.

(** Line 106, for the value [r] of [rand.Intn(100)]. *)
Definition sched0 (r : Z) : Sched :=
  mkSched (AtSleep (Backoff.jitter r)) Backoff.loop0.

(** What follows a completed [query()]: lines 114-124 in continuous mode,
    the end of the function otherwise. *)
Definition afterQuery (continuous : bool) (l : Backoff.Loop) : Sched :=
  if continuous then
    match Backoff.afterQuery l with
    | Some l' => mkSched AtSelect l'
    | None => mkSched Panicked l
    end
  else mkSched Exited l.

(** Entering [query()] (lines 97-103): the first send blocks, unless there
    is no interface to send for. *)
Definition startQuery (continuous : bool) (ifaces : list string)
  (l : Backoff.Loop) : Sched :=
  match MulticastInterfaces ifaces with
  | [] => afterQuery continuous l
  | pending => mkSched (AtSend pending) l
  end.

(** Line 100: the query for one interface. *)
Definition trigger (service : string) (i : Interface) : Query :=
  mkQuery (dns.Copy (question service)) i.

(** One resumption: the next suspension point and the queries handed over.
    [None] when the goroutine is not waiting for [w]. *)
Definition resume (continuous : bool) (service : string)
  (ifaces : list string) (s : Sched) (w : Wake)
  : option (Sched * list Query) :=
  match point s, w with
  | AtSleep _, Slept => Some (startQuery continuous ifaces (loop s), [])
  | AtSend (i :: rest), Handed =>
      let q := trigger service i in
      match rest with
      | [] => Some (afterQuery continuous (loop s), [q])
      | _ => Some (mkSched (AtSend rest) (loop s), [q])
      end
  | AtSelect, TimerFired =>
      Some (startQuery continuous ifaces (Backoff.afterTimer (loop s)), [])
  | AtSelect, SawDone => Some (mkSched Exited (loop s), [])
  | _, _ => None
  end.

(** A sequence of resumptions. *)
Fixpoint resumes (continuous : bool) (service : string)
  (ifaces : list string) (s : Sched) (ws : list Wake)
  : option (Sched * list Query) :=
  match ws with
  | [] => Some (s, [])
  | w :: rest =>
      match resume continuous service ifaces s w with
      | None => None
      | Some (s', qs) =>
          match resumes continuous service ifaces s' rest with
          | None => None
          | Some (s'', qs') => Some (s'', qs ++ qs')
          end
      end
  end.

(** Where a single-shot goroutine can be, and what it has handed over by
    then: nothing while it sleeps, afterwards the queries for the interfaces
    it is done with. *)
Definition singleShotAt (service : string) (ifaces : list string)
  (s : Sched) (qs : list Query) : Prop :=
  (exists d, point s = AtSleep d /\ qs = [])
  \/ (exists sent pending,
        MulticastInterfaces ifaces = sent ++ pending
        /\ qs = map (trigger service) sent
        /\ point s = match pending with [] => Exited | _ => AtSend pending end).

(** The goroutine next to the context and the loop that receives from
    [qs]. *)
Record System := mkSystem {
  sched : Sched;
  cancelled : bool;
  loopRunning : bool
}.

Inductive Move :=
| Cancel
| LoopReturns
| Goroutine (w : Wake).

(** [Cancel] closes [ctx.Done()].  The loop returns only through line 210.
    A send on the unbuffered [qs] completes only while the loop is there to
    receive, and the select of line 124 takes its second case only once the
    context is cancelled. *)
Definition move (continuous : bool) (service : string) (ifaces : list string)
  (y : System) (m : Move) : option (System * list Query) :=
  match m with
  | Cancel => Some (mkSystem (sched y) true (loopRunning y), [])
  | LoopReturns =>
      if cancelled y && loopRunning y
      then Some (mkSystem (sched y) true false, [])
      else None
  | Goroutine w =>
      let enabled :=
        match w with
        | Handed => loopRunning y
        | SawDone => cancelled y
        | Slept | TimerFired => true
        end in
      if enabled then
        match resume continuous service ifaces (sched y) w with
        | Some (s', qs) => Some (mkSystem s' (cancelled y) (loopRunning y), qs)
        | None => None
        end
      else None
  end.

Fixpoint moves (continuous : bool) (service : string) (ifaces : list string)
  (y : System) (ms : list Move) : option (System * list Query) :=
  match ms with
  | [] => Some (y, [])
  | m :: rest =>
      match move continuous service ifaces y m with
      | None => None
      | Some (y', qs) =>
          match moves continuous service ifaces y' rest with
          | None => None
          | Some (y'', qs') => Some (y'', qs ++ qs')
          end
      end
  end.

Definition system0 (r : Z) : System := mkSystem (sched0 r) false true.

End Scheduler.

(** ** A concrete package to run the model on *)

Module Demo.

(** The cache is its snapshot, a message carries the snapshot that follows
    it, and interfaces are their names. *)
#[export] Instance package : Package := {|
  Cache := list Service.t;
  Request := list Service.t;
  RR := string;
  Interface := string;
  error := string;
  NewCache := [];
  UpdateFrom := fun _ req => req;
  Services := fun c => c;
  ServiceName := fun s => (Service.Type_ s ++ "." ++ Service.Domain s ++ ".")%string;
  PTR := Service.ServiceInstanceName;
  MulticastInterfaces := fun ifaces => ifaces
|}.

Definition http : string := "_http._tcp.local."%string.

Definition ip1 : net.IP := [Byte.xc0; Byte.xa8; Byte.x00; Byte.x02].
Definition ip2 : net.IP := [Byte.xc0; Byte.xa8; Byte.x00; Byte.x07].

(** [foo._http._tcp.local.] on [en0]. *)
Definition foo : Service.t :=
  Service.mk "foo" "_http._tcp" "local" "foo.local." 80
    [("en0"%string, [ip1])] [("path"%string, "/"%string)]
    (100 * GoTime.Second) (60 * GoTime.Second).

(** The same instance after it moved host, port, address and text. *)
Definition foo' : Service.t :=
  Service.mk "foo" "_http._tcp" "local" "bar.local." 8080
    [("en0"%string, [ip2])] [] (100 * GoTime.Second) (160 * GoTime.Second).

Definition fooEntry : BrowseEntry.t := newEntry foo "en0" [ip1].

(** Three inbound messages: [foo] appears, is announced again with the new
    data, and is absent. *)
Definition m1 : @Request package := [foo].
Definition m2 : @Request package := [foo'].
Definition m3 : @Request package := [].

(** [bar._http._tcp.local.] with addresses on two interfaces, and its two
    entries. *)
Definition bar : Service.t :=
  Service.mk "bar" "_http._tcp" "local" "bar.local." 8080
    [("en0"%string, [ip1]); ("en1"%string, [ip2])] []
    (120 * GoTime.Second) (200 * GoTime.Second).

Definition barEn0 : BrowseEntry.t := newEntry bar "en0" [ip1].
Definition barEn1 : BrowseEntry.t := newEntry bar "en1" [ip2].

Definition m4 : @Request package := [bar].

(** The query for [en0]. *)
Definition en0 : @Interface package := "en0"%string.
Definition q0 : @Query package := trigger http en0.

End Demo.

(** ** What a session shows to the outside *)

Section Observations.

Context {P : Package}.

(** The entries [add] was called with, in call order. *)
Definition added (out : list Effect) : list BrowseEntry.t :=
  flat_map (fun x => match x with CallAdd e => [e] | _ => [] end) out.

(** The entries [rmv] was called with, in call order. *)
Definition removed (out : list Effect) : list BrowseEntry.t :=
  flat_map (fun x => match x with CallRmv e => [e] | _ => [] end) out.

(** The queries passed to [conn.SendQuery], in call order. *)
Definition sent (out : list Effect) : list Query :=
  flat_map (fun x => match x with SendQuery q => [q] | _ => [] end) out.

(** The queries the loop received on [qs] before it returned. *)
Fixpoint triggersTaken (evs : list Event) : list Query :=
  match evs with
  | [] => []
  | RecvQuery q _ _ :: rest => q :: triggersTaken rest
  | RecvMessage _ :: rest => triggersTaken rest
  | Done _ :: _ => []
  end.

Definition isQuery (ev : Event) : bool :=
  match ev with
  | RecvQuery _ _ _ => true
  | _ => false
  end.

(** A session without its query turns. *)
Definition dropQueries (evs : list Event) : list Event :=
  filter (fun ev => negb (isQuery ev)) evs.

(** What the loop did in a session that starts at line 137. *)
Definition effectsOf (service : string) (evs : list Event) : list Effect :=
  snd (fst (lookupTypeLoop service initial evs)).

(** [k] complete rounds of [query()]. *)
Definition rounds (service : string) (ifaces : list string) (k : nat)
  : list Query :=
  List.concat (repeat (map (trigger service) (MulticastInterfaces ifaces)) k).

(** The loop variables with which an iteration of line 111 can start: the
    interval sits at the cap, or the counter has not passed 12. *)
Definition tickStart (l : Backoff.Loop) : Prop :=
  Backoff.interval l = GoTime.Hour
  \/ (0 <= Backoff.counter l <= 12 /\ Backoff.interval l < GoTime.Hour).

(** The loop variables the select of line 124 can wait with. *)
Definition inSelect (l : Backoff.Loop) : Prop :=
  Backoff.interval l = GoTime.Hour
  \/ (0 <= Backoff.counter l <= 11 /\ Backoff.interval l < GoTime.Hour).

(** The suspension points a goroutine in continuous mode passes through. *)
Definition continuousAt (s : Sched) : Prop :=
  match point s with
  | AtSleep _ => loop s = Backoff.loop0
  | AtSend _ => tickStart (loop s)
  | AtSelect => inSelect (loop s)
  | Exited => True
  | Panicked => False
  end.

(** What a goroutine of either mode has handed over when it is at [s]:
    whole rounds, and in the middle of [query()] the queries for the
    interfaces already served. *)
Definition handedAt (service : string) (ifaces : list string)
  (s : Sched) (qs : list Query) : Prop :=
  match point s with
  | AtSleep _ => qs = []
  | AtSend pending =>
      exists k served,
        MulticastInterfaces ifaces = served ++ pending
        /\ qs = rounds service ifaces k ++ map (trigger service) served
  | AtSelect | Exited | Panicked => exists k, qs = rounds service ifaces k
  end.

Definition sameKey (k k' : string * string) : bool :=
  (fst k =? fst k')%string && (snd k =? snd k')%string.

(** The calls of [add] and [rmv] alternate per (instance name, interface)
    pair: with the pairs in [live] announced, [add] comes only for a pair
    that is not, [rmv] only for one that is. *)
Fixpoint alternating (live : list (string * string)) (out : list Effect)
  : Prop :=
  match out with
  | [] => True
  | CallAdd e :: rest =>
      ~ In (BrowseEntry.key e) live
      /\ alternating (BrowseEntry.key e :: live) rest
  | CallRmv e :: rest =>
      In (BrowseEntry.key e) live
      /\ alternating
           (filter (fun k => negb (sameKey k (BrowseEntry.key e))) live) rest
  | _ :: rest => alternating live rest
  end.

End Observations.

(** * Properties *)

(** ** Machine arithmetic *)

Section Arithmetic.

Import GoInt GoTime.

Lemma wrap64_id z : inRange z -> wrap64 z = z.
Proof.
  unfold inRange, wrap64, minInt64, maxInt64. intros H.
  rewrite Z.mod_small; lia.
Qed.

Lemma wrap64_range z : inRange (wrap64 z).
Proof.
  unfold inRange, wrap64, minInt64, maxInt64.
  pose proof (Z.mod_pos_bound (z + 2 ^ 63) (2 ^ 64) ltac:(lia)). lia.
Qed.

Lemma Hour_value : Hour = 3600 * Second.
Proof. reflexivity. Qed.

Lemma Second_value : Second = 1000000000.
Proof. reflexivity. Qed.

Lemma Millisecond_value : Millisecond = 1000000.
Proof. reflexivity. Qed.

End Arithmetic.

(** ** The jitter and the backoff *)

Section BackoffFacts.

Import GoInt GoTime Backoff.

Lemma jitter_small r : Intn 100 r -> jitter r = (r + 20) * Millisecond.
Proof.
  unfold Intn, jitter, mul64, add64. intros H.
  rewrite (wrap64_id (r + 20)).
  - apply wrap64_id. rewrite Millisecond_value.
    unfold inRange, minInt64, maxInt64. lia.
  - unfold inRange, minInt64, maxInt64. lia.
Qed.

Lemma capped_bounds j : 0 < capped j <= Hour.
Proof.
  unfold capped. pose proof (Z.pow_pos_nonneg 2 (Z.of_nat j)).
  rewrite Hour_value, Second_value. lia.
Qed.

Lemma capped_late j : (12 <= j)%nat -> capped j = Hour.
Proof.
  intros H. unfold capped. apply Z.min_r.
  assert (2 ^ 12 <= 2 ^ Z.of_nat j) by (apply Z.pow_le_mono_r; lia).
  rewrite Hour_value, Second_value. lia.
Qed.

(** Once the interval sits at one hour, line 114 keeps the shift from being
    evaluated, whatever the counter has become. *)
Lemma delays_latched n c : delays n (mkLoop c Hour) = Some (repeat Hour n).
Proof.
  revert c. induction n as [|n IH]; intros c; [reflexivity|].
  cbn [delays]. unfold afterQuery, nextInterval. cbn [interval counter].
  rewrite Z.ltb_irrefl. unfold afterTimer. cbn [interval counter].
  rewrite IH. reflexivity.
Qed.

Lemma delays_step n l l1 :
  afterQuery l = Some l1 ->
  delays (S n) l = option_map (cons (interval l1)) (delays n (afterTimer l1)).
Proof.
  intros H. cbn [delays]. rewrite H.
  destruct (delays n (afterTimer l1)); reflexivity.
Qed.

Lemma map_capped_late m j :
  (12 <= j)%nat -> map capped (seq j m) = repeat Hour m.
Proof.
  revert j. induction m as [|m IH]; intros j H; [reflexivity|].
  cbn [seq map repeat]. rewrite capped_late by lia. rewrite IH by lia.
  reflexivity.
Qed.

(** The first twelve ticks double the delay; the thirteenth reaches the
    cap. *)
Lemma delays_first m :
  delays (13 + m) loop0 = Some (map capped (seq 0 13) ++ repeat Hour m).
Proof.
  change (13 + m)%nat with (S (S (S (S (S (S (S (S (S (S (S (S (S m))))))))))))).
  unfold loop0.
  repeat (erewrite delays_step by (vm_compute; reflexivity);
          unfold afterTimer; cbn [interval counter];
          match goal with
          | |- context [add64 ?c 1] =>
              let v := eval vm_compute in (add64 c 1) in
              change (add64 c 1) with v
          end).
  rewrite Hour_value, Second_value.
  change (3600 * 1000000000) with Hour.
  rewrite delays_latched. vm_compute map. reflexivity.
Qed.

Lemma delays_loop0 n : delays n loop0 = Some (map capped (seq 0 n)).
Proof.
  destruct (Nat.lt_ge_cases n 13) as [H|H].
  - do 13 (destruct n as [|n]; [vm_compute; reflexivity|]). lia.
  - replace n with (13 + (n - 13))%nat by lia.
    rewrite delays_first, seq_app, map_app.
    rewrite (map_capped_late (n - 13) (0 + 13)) by lia. reflexivity.
Qed.

End BackoffFacts.

Section BackoffClaims.

Import GoInt GoTime Backoff.

(** C4.  In continuous mode the delays that follow ticks 1, 2, 3, ... are
    1s, 2s, 4s, ... capped at one hour: the wait after tick [n+1] is
    [min(2^n seconds, 1 hour)] for every [n], the loop never panics on its
    shift, and every delay is positive and at most 3600s. *)
Theorem backoff_delays_are_capped_powers (n : nat) :
  delays n loop0 = Some (map capped (seq 0 n))
  /\ delayAfterTick (S n) = Some (Z.min (2 ^ Z.of_nat n * Second) (3600 * Second))
  /\ 0 < capped n <= 3600 * Second
  /\ map capped (seq 0 14)
     = map (fun s => s * Second)
         [1; 2; 4; 8; 16; 32; 64; 128; 256; 512; 1024; 2048; 3600; 3600].
Proof.
  split; [apply delays_loop0|]. split; [|split].
  - unfold delayAfterTick. rewrite delays_loop0. cbn [pred].
    rewrite nth_error_map, nth_error_seq.
    destruct (Nat.ltb_spec n (S n)); [reflexivity | lia].
  - rewrite <- Hour_value. apply capped_bounds.
  - vm_compute. reflexivity.
Qed.

(** C9, as the code has it.  The jitter is a whole number of milliseconds
    from 20ms to 119ms: each of these hundred values is the jitter of exactly
    one result of [rand.Intn(100)], and nothing else is. *)
Theorem jitter_is_20_to_119_ms :
  (forall d, (exists r, Intn 100 r /\ jitter r = d)
             <-> (exists m, 20 <= m <= 119 /\ d = m * Millisecond))
  /\ (forall r, Intn 100 r ->
       20 * Millisecond <= jitter r < 120 * Millisecond)
  /\ (forall r r', Intn 100 r -> Intn 100 r' -> jitter r = jitter r' -> r = r').
Proof.
  split; [|split].
  - intros d. split.
    + intros (r & Hr & <-). exists (r + 20). rewrite jitter_small by assumption.
      unfold Intn in Hr. split; [lia | reflexivity].
    + intros (m & Hm & ->). exists (m - 20).
      assert (Intn 100 (m - 20)) as Hr by (unfold Intn; lia).
      split; [assumption|]. rewrite jitter_small by assumption.
      f_equal. lia.
  - intros r Hr. rewrite jitter_small by assumption.
    unfold Intn in Hr. rewrite Millisecond_value. lia.
  - intros r r' Hr Hr'. rewrite !jitter_small by assumption.
    rewrite Millisecond_value. lia.
Qed.

Lemma jitter_is_20_to_119_ms_witness :
  Intn 100 0 /\ Intn 100 99
  /\ 20 * Millisecond <= jitter 99 < 120 * Millisecond
  /\ (jitter 0 = jitter 0 -> 0 = 0).
Proof.
  assert (Intn 100 0) as H0 by (unfold Intn; lia).
  assert (Intn 100 99) as H99 by (unfold Intn; lia).
  split; [exact H0|]. split; [exact H99|]. split.
  - exact (proj1 (proj2 jitter_is_20_to_119_ms) 99 H99).
  - exact (proj2 (proj2 jitter_is_20_to_119_ms) 0 0 H0 H0).
Defined.

(** C9 as the spec words it fails at the upper end: no result of
    [rand.Intn(100)] gives 120ms, so not every value of [20ms, 120ms] is
    possible. *)
Lemma jitter_never_120ms :
  ~ (forall d, 20 * Millisecond <= d <= 120 * Millisecond ->
               exists r, Intn 100 r /\ jitter r = d).
Proof.
  intros H. destruct (H (120 * Millisecond)) as (r & Hr & E).
  - rewrite Millisecond_value. lia.
  - rewrite jitter_small in E by assumption. unfold Intn in Hr.
    rewrite Millisecond_value in E. lia.
Qed.

End BackoffClaims.

(** ** Known-answer suppression *)

Section KnownAnswers.

Context {P : Package}.

Import GoInt GoTime.

Lemma div64_half ttl : inRange ttl -> div64 ttl 2 = Z.quot ttl 2.
Proof.
  intros H. unfold div64. apply wrap64_id.
  unfold inRange, minInt64, maxInt64 in *.
  pose proof (Z.quot_rem' ttl 2) as E.
  pose proof (Z.rem_bound_abs ttl 2 ltac:(lia)). lia.
Qed.

(** The clamp of [Sub] and the truncation of [/] do not move line 149 away
    from the comparison on unbounded integers. *)
Lemma fresh_spec now srv :
  inRange (Service.TTL srv) ->
  fresh now srv = (Service.expiration srv - now >? Z.quot (Service.TTL srv) 2).
Proof.
  intros H. unfold fresh, Until, Sub. rewrite div64_half by assumption.
  unfold inRange, minInt64, maxInt64 in *.
  pose proof (Z.quot_rem' (Service.TTL srv) 2) as E.
  pose proof (Z.rem_bound_abs (Service.TTL srv) 2 ltac:(lia)).
  destruct (Z.gtb_spec (Service.expiration srv - now)
              (Z.quot (Service.TTL srv) 2));
    destruct (Z.gtb_spec
                (Z.max (- 2 ^ 63)
                   (Z.min (2 ^ 63 - 1) (Service.expiration srv - now)))
                (Z.quot (Service.TTL srv) 2)); try reflexivity; lia.
Qed.

Lemma knownAnswers_filter service visits :
  Forall (fun v => inRange (Service.TTL (fst v))) visits ->
  knownAnswers service visits
  = map (fun v => PTR (fst v)) (filter (included service) visits).
Proof.
  induction 1 as [|[srv now] rest Hr _ IH]; [reflexivity|].
  cbn [knownAnswers filter]. unfold included at 1. cbn [fst snd] in *.
  rewrite <- fresh_spec by assumption.
  destruct (ServiceName srv =? service)%string; cbn [negb andb];
    [destruct (fresh now srv); cbn [map]|]; rewrite IH; reflexivity.
Qed.

Lemma included_iff service srv now :
  included service (srv, now) = true
  <-> ServiceName srv = service
      /\ Service.expiration srv - now > Z.quot (Service.TTL srv) 2.
Proof.
  unfold included. cbn [fst snd].
  rewrite andb_true_iff, String.eqb_eq.
  destruct (Z.gtb_spec (Service.expiration srv - now)
              (Z.quot (Service.TTL srv) 2)); intuition (try lia; congruence).
Qed.

Lemma knownAnswers_100s service srv now :
  ServiceName srv = service ->
  Service.TTL srv = 100 * Second ->
  (Service.expiration srv - now = 60 * Second ->
   knownAnswers service [(srv, now)] = [PTR srv])
  /\ (Service.expiration srv - now = 40 * Second ->
      knownAnswers service [(srv, now)] = []).
Proof.
  intros Hs Ht.
  assert (Forall (fun v => inRange (Service.TTL (fst v))) [(srv, now)]) as Hr.
  { constructor; [|constructor]. cbn [fst]. rewrite Ht, Second_value.
    unfold inRange, minInt64, maxInt64. lia. }
  rewrite (knownAnswers_filter service _ Hr). cbn [filter].
  split; intros Hd.
  - replace (included service (srv, now)) with true; [reflexivity|].
    symmetry. apply included_iff. split; [assumption|].
    rewrite Hd, Ht, Second_value. reflexivity.
  - replace (included service (srv, now)) with false; [reflexivity|].
    symmetry. apply not_true_is_false. intros Hi.
    apply included_iff in Hi. destruct Hi as [_ Hi].
    rewrite Hd, Ht, Second_value in Hi. vm_compute in Hi. discriminate.
Qed.

(** What a query turn passes to [conn.SendQuery]: one query, the one taken
    from [qs] with its answer section replaced by the known answers over
    the snapshot of the cache. *)
Lemma handle_query_sends service st q clock sendErr :
  exists out q',
    handle service st (RecvQuery q clock sendErr) = Continue st out
    /\ In (SendQuery q') out
    /\ (forall x, In (SendQuery x) out -> x = q')
    /\ iface q' = iface q
    /\ dns.Msg_Question (msg q') = dns.Msg_Question (msg q)
    /\ dns.Msg_Answer (msg q')
       = knownAnswers service
           (combine (Services (cache st))
              (map clock (seq 0 (List.length (Services (cache st)))))).
Proof.
  eexists. eexists. split; [reflexivity|].
  split; [right; left; reflexivity|]. split; [|repeat split].
  intros x Hx. destruct sendErr; cbn [app In] in Hx;
    repeat (destruct Hx as [Hx|Hx]; try discriminate Hx;
            try (injection Hx as <-; reflexivity));
    destruct Hx.
Qed.

(** C3.  The answer section of the query a turn sends holds, in the order
    of the snapshot, the records of the cache whose service name is the
    browsed one and whose remaining lifetime, at the clock reading of their
    turn in the loop, exceeds half their TTL, and no other; the query goes
    out once, on its interface and with its question.  A cached record
    with TTL 100s is in the answer section with 60s left and not with 40s
    left. *)
Theorem known_answers_are_the_fresh_matching_records
  (service : string) (visits : list (Service.t * Time)) :
  Forall (fun v => inRange (Service.TTL (fst v))) visits ->
  knownAnswers service visits
  = map (fun v => PTR (fst v)) (filter (included service) visits)
  /\ (forall srv now,
        included service (srv, now) = true
        <-> ServiceName srv = service
            /\ Service.expiration srv - now > Z.quot (Service.TTL srv) 2)
  /\ (forall srv now,
        ServiceName srv = service ->
        Service.TTL srv = 100 * Second ->
        (Service.expiration srv - now = 60 * Second ->
         knownAnswers service [(srv, now)] = [PTR srv])
        /\ (Service.expiration srv - now = 40 * Second ->
            knownAnswers service [(srv, now)] = []))
  /\ (forall st q clock sendErr,
        visits = visit clock (Services (cache st)) ->
        exists out,
          handle service st (RecvQuery q clock sendErr) = Continue st out
          /\ In (SendQuery
                   (setAnswer q
                      (map (fun v => PTR (fst v))
                         (filter (included service) visits)))) out)
  /\ (forall st q clock sendErr,
        visits
        = combine (Services (cache st))
            (map clock (seq 0 (List.length (Services (cache st))))) ->
        exists out q',
          handle service st (RecvQuery q clock sendErr) = Continue st out
          /\ In (SendQuery q') out
          /\ (forall x, In (SendQuery x) out -> x = q')
          /\ iface q' = iface q
          /\ dns.Msg_Question (msg q') = dns.Msg_Question (msg q)
          /\ dns.Msg_Answer (msg q')
             = map (fun v => PTR (fst v)) (filter (included service) visits))
  /\ (forall st q clock sendErr srv,
        Services (cache st) = [srv] ->
        ServiceName srv = service ->
        Service.TTL srv = 100 * Second ->
        (Service.expiration srv - clock 0%nat = 60 * Second ->
         exists out q',
           handle service st (RecvQuery q clock sendErr) = Continue st out
           /\ In (SendQuery q') out
           /\ dns.Msg_Answer (msg q') = [PTR srv])
        /\ (Service.expiration srv - clock 0%nat = 40 * Second ->
            exists out q',
              handle service st (RecvQuery q clock sendErr) = Continue st out
              /\ In (SendQuery q') out
              /\ dns.Msg_Answer (msg q') = [])).
Proof.
  intros H. split; [apply knownAnswers_filter; assumption|].
  split; [intros; apply included_iff|].
  split; [apply knownAnswers_100s|].
  split; [intros st q clock sendErr ->; eexists; split; [reflexivity|];
          rewrite <- knownAnswers_filter by assumption;
          right; left; reflexivity|].
  split.
  - intros st q clock sendErr Hv.
    destruct (handle_query_sends service st q clock sendErr)
      as (out & q' & Hh & Hin & Huniq & Hi & Hq & Ha).
    exists out, q'. rewrite <- Hv in Ha.
    rewrite (knownAnswers_filter service visits H) in Ha. tauto.
  - intros st q clock sendErr srv Hc Hs Ht.
    destruct (handle_query_sends service st q clock sendErr)
      as (out & q' & Hh & Hin & _ & _ & _ & Ha).
    rewrite Hc in Ha. cbn [List.length seq map combine] in Ha.
    destruct (knownAnswers_100s service srv (clock 0%nat) Hs Ht) as [H60 H40].
    split; intros Hd; exists out, q';
      (split; [exact Hh|]); (split; [exact Hin|]); rewrite Ha; auto.
Qed.

End KnownAnswers.

(** ** Reconciliation *)

Section Reconciliation.

Context {P : Package}.

Lemma announced_iff name ifaceName es :
  announced name ifaceName es = true
  <-> In (name, ifaceName) (map BrowseEntry.key es).
Proof.
  unfold announced. rewrite existsb_exists, in_map_iff. split.
  - intros (e & He & Hk). apply andb_true_iff in Hk as [Hn Hi].
    apply String.eqb_eq in Hn, Hi. exists e. unfold BrowseEntry.key.
    split; [congruence | assumption].
  - intros (e & Hk & He). exists e. split; [assumption|].
    unfold BrowseEntry.key in Hk. injection Hk as <- <-.
    rewrite !String.eqb_refl. reflexivity.
Qed.


Lemma announced_key e es :
  announced (BrowseEntry.Name e) (BrowseEntry.IfaceName e) es = false
  <-> ~ In (BrowseEntry.key e) (map BrowseEntry.key es).
Proof.
  rewrite <- (announced_iff (BrowseEntry.Name e) (BrowseEntry.IfaceName e)).
  destruct (announced _ _ es); intuition congruence.
Qed.

(** *** The addition pass adds the unannounced candidates *)

Lemma unannounced_app es a b :
  unannounced es (a ++ b)
  = unannounced es a ++ unannounced (es ++ unannounced es a) b.
Proof.
  revert es. induction a as [|e a IH]; intros es; cbn [unannounced app].
  - rewrite app_nil_r. reflexivity.
  - destruct (announced _ _ es); [apply IH|].
    cbn [app]. rewrite IH, <- app_assoc. reflexivity.
Qed.

Lemma addIfaces_eq srv ifs es calls :
  let adds :=
    unannounced es (map (fun p => newEntry srv (fst p) (snd p)) ifs) in
  addIfaces srv ifs es calls = (es ++ adds, calls ++ map CallAdd adds).
Proof.
  revert es calls. induction ifs as [|[ifaceName ips] ifs IH]; intros es calls.
  - cbn. rewrite !app_nil_r. reflexivity.
  - cbn [addIfaces map unannounced fst snd newEntry
         BrowseEntry.Name BrowseEntry.IfaceName].
    destruct (announced (Service.Name srv) ifaceName es); [apply IH|].
    rewrite IH. cbn [map]. rewrite <- !app_assoc. reflexivity.
Qed.

Lemma additionPass_eq service svcs es calls :
  let adds := unannounced es (candidates service svcs) in
  additionPass service svcs es calls = (es ++ adds, calls ++ map CallAdd adds).
Proof.
  revert es calls. induction svcs as [|srv svcs IH]; intros es calls.
  - cbn. rewrite !app_nil_r. reflexivity.
  - cbn [additionPass candidates flat_map].
    destruct (ServiceName srv =? service)%string; cbn [negb].
    + rewrite addIfaces_eq, IH, unannounced_app, map_app, <- !app_assoc.
      reflexivity.
    + apply IH.
Qed.

Lemma unannounced_sound es cands e :
  In e (unannounced es cands) ->
  In e cands /\ ~ In (BrowseEntry.key e) (map BrowseEntry.key es).
Proof.
  revert es. induction cands as [|c cands IH]; intros es; cbn [unannounced].
  - intros [].
  - destruct (announced _ _ es) eqn:Ha.
    + intros H. apply IH in H. cbn [In]. tauto.
    + intros [<-|H].
      * split; [left; reflexivity | apply announced_key; assumption].
      * apply IH in H as [Hin Hk]. split; [right; assumption|].
        rewrite map_app, in_app_iff in Hk. tauto.
Qed.


Lemma unannounced_dedup es cands :
  dedup es -> dedup (es ++ unannounced es cands).
Proof.
  unfold dedup. revert es.
  induction cands as [|c cands IH]; intros es H; cbn [unannounced].
  - rewrite app_nil_r. assumption.
  - destruct (announced _ _ es) eqn:Ha; [apply IH; assumption|].
    specialize (IH (es ++ [c])). rewrite <- app_assoc in IH. apply IH.
    rewrite map_app. cbn [map].
    apply NoDup_incl_NoDup with (l := BrowseEntry.key c :: map BrowseEntry.key es).
    + constructor; [apply announced_key; assumption | assumption].
    + rewrite length_app. cbn [List.length]. lia.
    + intros k Hk. apply in_app_iff. cbn [In] in *. tauto.
Qed.


Lemma unannounced_nodup es cands : dedup (unannounced es cands).
Proof.
  unfold dedup. revert es.
  induction cands as [|c cands IH]; intros es; cbn [unannounced map].
  - constructor.
  - destruct (announced _ _ es); [apply IH|].
    cbn [map]. constructor; [|apply IH].
    intros Hk. apply in_map_iff in Hk as (x & Hx & Hin).
    apply unannounced_sound in Hin as [_ Hin]. apply Hin.
    rewrite Hx, map_app, in_app_iff. right. left. reflexivity.
Qed.

(** *** The removal pass keeps what the snapshot still names *)

Lemma removalPass_eq svcs es tmp calls :
  removalPass svcs es tmp calls
  = (tmp ++ filter (inSnapshot svcs) es, calls ++ map CallRmv (gone svcs es)).
Proof.
  unfold gone. revert tmp calls.
  induction es as [|e es IH]; intros tmp calls; cbn [removalPass filter map].
  - rewrite !app_nil_r. reflexivity.
  - destruct (inSnapshot svcs e); cbn [negb map]; rewrite IH, <- app_assoc;
      reflexivity.
Qed.

Lemma inSnapshot_newEntry svcs srv ifaceName ips :
  In srv svcs -> inSnapshot svcs (newEntry srv ifaceName ips) = true.
Proof.
  intros H. unfold inSnapshot. apply existsb_exists. exists srv.
  split; [assumption | apply String.eqb_refl].
Qed.

Lemma candidates_inSnapshot service svcs e :
  In e (candidates service svcs) -> inSnapshot svcs e = true.
Proof.
  unfold candidates. rewrite in_flat_map. intros (srv & Hs & He).
  destruct (ServiceName srv =? service)%string; [|destruct He].
  apply in_map_iff in He as (p & <- & _). apply inSnapshot_newEntry.
  assumption.
Qed.

Lemma filter_all {A} (p : A -> bool) l :
  (forall x, In x l -> p x = true) -> filter p l = l.
Proof.
  induction l as [|a l IH]; intros H; [reflexivity|]. cbn [filter].
  rewrite (H a) by (left; reflexivity). f_equal. apply IH.
  intros x Hx. apply H. right. assumption.
Qed.

Lemma filter_none {A} (p : A -> bool) l :
  (forall x, In x l -> p x = true) -> filter (fun x => negb (p x)) l = [].
Proof.
  induction l as [|a l IH]; intros H; [reflexivity|]. cbn [filter].
  rewrite (H a) by (left; reflexivity). apply IH.
  intros x Hx. apply H. right. assumption.
Qed.

Lemma reconcile_eq service svcs es :
  let adds := unannounced es (candidates service svcs) in
  reconcile service svcs es
  = (filter (inSnapshot svcs) es ++ adds,
     map CallAdd adds ++ map CallRmv (gone svcs es)).
Proof.
  intros adds. unfold reconcile. rewrite additionPass_eq. fold adds.
  rewrite removalPass_eq. unfold gone. rewrite !filter_app. cbn [app].
  assert (forall x, In x adds -> inSnapshot svcs x = true) as Hadds.
  { intros x Hx. apply unannounced_sound in Hx as [Hx _].
    apply candidates_inSnapshot with (service := service). assumption. }
  rewrite (filter_all _ adds Hadds), (filter_none _ adds Hadds), app_nil_r.
  reflexivity.
Qed.

Lemma handle_message_eq service st req :
  let cache' := UpdateFrom (cache st) req in
  let adds := unannounced (es st) (candidates service (Services cache')) in
  handle service st (RecvMessage req)
  = Continue
      (mkState cache' (filter (inSnapshot (Services cache')) (es st) ++ adds))
      (LogReceiveMessage req
         :: map CallAdd adds ++ map CallRmv (gone (Services cache') (es st))).
Proof.
  intros cache' adds. unfold handle. fold cache'.
  rewrite reconcile_eq. reflexivity.
Qed.

(** *** The invariant *)

Lemma dedup_filter_app (p : BrowseEntry.t -> bool) es adds :
  dedup (es ++ adds) -> dedup (filter p es ++ adds).
Proof.
  unfold dedup. induction es as [|e es IH]; intros H; [assumption|].
  cbn [map filter app] in *. inversion H as [|k ks Hk Hnd]; subst.
  destruct (p e); [|apply IH; assumption].
  cbn [map app]. constructor; [|apply IH; assumption].
  intros Hin. apply Hk. rewrite map_app, in_app_iff in *.
  destruct Hin as [Hin|Hin]; [left | right; assumption].
  apply in_map_iff in Hin as (x & Hx & Hin).
  apply filter_In in Hin as [Hin _]. rewrite <- Hx. apply in_map. assumption.
Qed.

Lemma dedup_inj es x y :
  dedup es -> In x es -> In y es ->
  BrowseEntry.key x = BrowseEntry.key y -> x = y.
Proof.
  unfold dedup. induction es as [|e es IH]; intros H Hx Hy E; [destruct Hx|].
  cbn [map] in H. inversion H as [|k ks Hk Hnd]; subst.
  destruct Hx as [->|Hx], Hy as [->|Hy].
  - reflexivity.
  - exfalso. apply Hk. rewrite E. apply in_map. assumption.
  - exfalso. apply Hk. rewrite <- E. apply in_map. assumption.
  - apply IH; assumption.
Qed.

Lemma handle_dedup service st ev st' out :
  dedup (es st) -> handle service st ev = Continue st' out -> dedup (es st').
Proof.
  intros H. destruct ev as [q clock sendErr|req|err].
  - cbn [handle]. intros E. injection E as <- _. assumption.
  - rewrite handle_message_eq. intros E. injection E as <- _. cbn [es].
    apply dedup_filter_app, unannounced_dedup. assumption.
  - discriminate.
Qed.

Lemma loop_dedup service evs st :
  dedup (es st) -> dedup (es (fst (fst (lookupTypeLoop service st evs)))).
Proof.
  revert st. induction evs as [|ev evs IH]; intros st H; [assumption|].
  cbn [lookupTypeLoop].
  destruct (handle service st ev) as [st' out|err] eqn:E; [|assumption].
  specialize (IH st' (handle_dedup _ _ _ _ _ H E)).
  destruct (lookupTypeLoop service st' evs) as [[st'' out'] r]. exact IH.
Qed.

Lemma stateAfter_dedup service evs : dedup (es (stateAfter service evs)).
Proof. apply loop_dedup. constructor. Qed.

End Reconciliation.

(** ** The loop: what the claims say *)

Section LoopClaims.

Context {P : Package}.

(** C1.  Whatever turns the loop has taken since it started, [es] holds at
    most one entry per (instance name, interface) pair.  The addition pass
    of the next inbound message only appends, and what it leaves before
    the removal pass runs has no two entries for one pair either; nor has
    [es] once that message is dealt with. *)
Theorem announced_set_has_one_entry_per_pair
  (service : string) (evs : list Event) :
  let st := stateAfter service evs in
  dedup (es st)
  /\ forall req,
       exists adds,
         fst (additionPass service (Services (UpdateFrom (cache st) req))
                (es st) [])
         = es st ++ adds
         /\ dedup (es st ++ adds)
         /\ dedup (es (stateAfter service (evs ++ [RecvMessage req]))).
Proof.
  intros st. split; [apply stateAfter_dedup|].
  intros req. eexists. rewrite additionPass_eq. cbn [fst].
  split; [reflexivity|]. split; [|apply stateAfter_dedup].
  apply unannounced_dedup, stateAfter_dedup.
Qed.


(** C6.  The turn that takes the [ctx.Done()] case returns the value of
    [ctx.Err()] as it is, whatever the state; the loop returns through no
    other turn, so what a session returns is the error of the first such
    turn. *)
Theorem cancellation_returns_ctx_err
  (service : string) (st : State) (evs : list Event) (err : error) :
  handle service st (Done err) = Return err
  /\ snd (lookupTypeLoop service st evs) = firstDone evs
  /\ snd (lookupTypeLoop service st (evs ++ [Done err]))
     = Some (match firstDone evs with Some err' => err' | None => err end).
Proof.
  split; [reflexivity|].
  assert (forall l st0, snd (lookupTypeLoop service st0 l) = firstDone l) as H.
  { induction l as [|ev l IH]; intros st0; [reflexivity|].
    cbn [lookupTypeLoop].
    destruct ev as [q clock sendErr|req|err0]; cbn [firstDone].
    - cbn [handle]. specialize (IH st0).
      destruct (lookupTypeLoop service st0 l) as [[st'' out'] r]. exact IH.
    - rewrite handle_message_eq.
      match goal with
      | |- context [lookupTypeLoop service ?s l] =>
          specialize (IH s); destruct (lookupTypeLoop service s l) as [[st'' out'] r]
      end. exact IH.
    - reflexivity. }
  split; [apply H|]. rewrite H.
  induction evs as [|ev evs IH]; [reflexivity|].
  destruct ev; cbn [app firstDone]; auto.
Qed.

(** C7.  A query whose send fails is a turn like any other: the loop goes
    on with the cache and [es] it had, it logs the error and calls neither
    callback, and the rest of the session runs as it would have run
    without that turn. *)
Theorem failed_send_is_absorbed
  (service : string) (st : State) (q : Query) (clock : nat -> GoTime.Time)
  (err : error) (rest : list Event) :
  (exists out,
     handle service st (RecvQuery q clock (Some err)) = Continue st out
     /\ In (LogSendQueryErr err) out
     /\ callbacks out = [])
  /\ fst (fst (lookupTypeLoop service st (RecvQuery q clock (Some err) :: rest)))
     = fst (fst (lookupTypeLoop service st rest))
  /\ callbacks (snd (fst (lookupTypeLoop service st
                            (RecvQuery q clock (Some err) :: rest))))
     = callbacks (snd (fst (lookupTypeLoop service st rest)))
  /\ snd (lookupTypeLoop service st (RecvQuery q clock (Some err) :: rest))
     = snd (lookupTypeLoop service st rest).
Proof.
  split.
  - eexists. split; [reflexivity|]. split; [|reflexivity].
    cbn. right. right. left. reflexivity.
  - cbn [lookupTypeLoop handle].
    destruct (lookupTypeLoop service st rest) as [[st'' out'] r].
    cbn [fst snd]. repeat split.
Qed.

(** C10.  Take an entry the loop has announced, and an inbound message
    after which the snapshot still holds a record of that instance (same
    instance name, service type and domain), whatever that record now says
    about host, port, addresses or text.  Then this turn calls neither
    [add] nor [rmv] for the entry's (instance name, interface) pair, and
    [es] still holds the entry as it was, alone for its pair. *)
Theorem announced_entry_is_left_as_it_was
  (service : string) (evs : list Event) (req : Request)
  (e : BrowseEntry.t) (srv : Service.t) :
  let st := stateAfter service evs in
  In e (es st) ->
  In srv (Services (UpdateFrom (cache st) req)) ->
  Service.Name srv = BrowseEntry.Name e ->
  Service.Type_ srv = BrowseEntry.Type_ e ->
  Service.Domain srv = BrowseEntry.Domain e ->
  exists st' out,
    handle service st (RecvMessage req) = Continue st' out
    /\ (forall x, In (CallAdd x) out -> BrowseEntry.key x <> BrowseEntry.key e)
    /\ (forall x, In (CallRmv x) out -> BrowseEntry.key x <> BrowseEntry.key e)
    /\ In e (es st')
    /\ (forall x, In x (es st') ->
          BrowseEntry.key x = BrowseEntry.key e -> x = e).
Proof.
  intros st He Hs Hn Ht Hd.
  pose proof (stateAfter_dedup service evs) as Hdd. fold st in Hdd.
  set (svcs := Services (UpdateFrom (cache st) req)) in *.
  assert (inSnapshot svcs e = true) as Hkeep.
  { unfold inSnapshot. apply existsb_exists. exists srv.
    split; [assumption|]. apply String.eqb_eq.
    unfold Service.ServiceInstanceName, BrowseEntry.ServiceInstanceName.
    rewrite Hn, Ht, Hd. reflexivity. }
  eexists. eexists. split; [apply handle_message_eq|].
  fold svcs. set (adds := unannounced (es st) (candidates service svcs)).
  assert (dedup (filter (inSnapshot svcs) (es st) ++ adds)) as Hdd'.
  { apply dedup_filter_app, unannounced_dedup. assumption. }
  assert (In e (filter (inSnapshot svcs) (es st) ++ adds)) as He'.
  { apply in_app_iff. left. apply filter_In. tauto. }
  split; [|split; [|split]].
  - intros x [Hx|Hx]; [discriminate|].
    apply in_app_iff in Hx as [Hx|Hx]; apply in_map_iff in Hx as (y & E & Hy);
      [|discriminate].
    injection E as ->. apply unannounced_sound in Hy as [_ Hk].
    intros E. apply Hk. rewrite E. apply in_map. assumption.
  - intros x [Hx|Hx]; [discriminate|].
    apply in_app_iff in Hx as [Hx|Hx]; apply in_map_iff in Hx as (y & E & Hy);
      [discriminate|].
    injection E as ->. unfold gone in Hy. apply filter_In in Hy as [Hy Hgone].
    intros E. rewrite (dedup_inj (es st) x e Hdd Hy He E), Hkeep in Hgone.
    discriminate.
  - cbn [es]. assumption.
  - cbn [es]. intros x Hx E. apply (dedup_inj _ x e Hdd' Hx He' E).
Qed.

End LoopClaims.

(** ** The scheduling goroutine: what the claims say *)

Section SchedulerClaims.

Context {P : Package}.

Variables (service : string) (ifaces : list string).

Lemma single_shot_sends l pending :
  pending <> [] ->
  resumes false service ifaces (mkSched (AtSend pending) l)
    (repeat Handed (List.length pending))
  = Some (mkSched Exited l, map (trigger service) pending).
Proof.
  induction pending as [|i pending IH]; intros H; [congruence|].
  cbn [List.length repeat resumes resume point loop].
  destruct pending as [|j pending].
  - reflexivity.
  - rewrite IH by discriminate. reflexivity.
Qed.

Lemma singleShotAt_resume s qs w s' qs' :
  singleShotAt service ifaces s qs ->
  resume false service ifaces s w = Some (s', qs') ->
  singleShotAt service ifaces s' (qs ++ qs').
Proof.
  intros [(d & Hp & ->)|(sent & pending & Ht & -> & Hp)];
    unfold resume; rewrite Hp.
  - destruct w; try discriminate. intros E. injection E as <- <-.
    right. exists [], (MulticastInterfaces ifaces). repeat split.
    unfold startQuery. destruct (MulticastInterfaces ifaces); reflexivity.
  - destruct pending as [|i pending]; [discriminate|].
    destruct w; try discriminate.
    assert (MulticastInterfaces ifaces = (sent ++ [i]) ++ pending) as Ht'
      by (rewrite <- app_assoc; exact Ht).
    destruct pending as [|j pending]; intros E; injection E as <- <-;
      right; exists (sent ++ [i]); eexists; (split; [exact Ht'|]);
      rewrite map_app; split; reflexivity.
Qed.

Lemma singleShotAt_resumes ws s qs s' qs' :
  singleShotAt service ifaces s qs ->
  resumes false service ifaces s ws = Some (s', qs') ->
  singleShotAt service ifaces s' (qs ++ qs').
Proof.
  revert s qs s' qs'. induction ws as [|w ws IH]; intros s qs s' qs' H.
  - cbn. intros E. injection E as <- <-. rewrite app_nil_r. assumption.
  - cbn [resumes].
    destruct (resume false service ifaces s w) as [[s1 q1]|] eqn:E1;
      [|discriminate].
    destruct (resumes false service ifaces s1 ws) as [[s2 q2]|] eqn:E2;
      [|discriminate].
    intros E. injection E as <- <-. rewrite app_assoc.
    apply (IH s1); [|assumption].
    apply (singleShotAt_resume s qs w); assumption.
Qed.

(** C8.  With [continuous = false] the goroutine, once every send has been
    taken, has handed over one query per target interface and is at its
    end, where nothing resumes it; and however far a run has come, what it
    has handed over is an initial part of that one round. *)
Theorem single_shot_ticks_once (r : Z) :
  let round := map (trigger service) (MulticastInterfaces ifaces) in
  resumes false service ifaces (sched0 r)
    (Slept :: repeat Handed (List.length (MulticastInterfaces ifaces)))
  = Some (mkSched Exited Backoff.loop0, round)
  /\ (forall l w, resume false service ifaces (mkSched Exited l) w = None)
  /\ (forall ws s qs,
        resumes false service ifaces (sched0 r) ws = Some (s, qs) ->
        (exists n, qs = firstn n round)
        /\ (point s = Exited -> qs = round)).
Proof.
  intros round. subst round. split; [|split].
  - cbn [resumes resume sched0 point loop]. unfold startQuery.
    destruct (MulticastInterfaces ifaces) as [|i pending] eqn:Et;
      [reflexivity|].
    rewrite single_shot_sends by discriminate. reflexivity.
  - intros l w. destruct w; reflexivity.
  - intros ws s qs E.
    assert (singleShotAt service ifaces (sched0 r) []) as H0
      by (left; eexists; split; reflexivity).
    pose proof (singleShotAt_resumes ws _ _ _ _ H0 E) as H. cbn [app] in H.
    destruct H as [(d & Hp & ->)|(sent & pending & Ht & -> & Hp)].
    + split; [exists 0%nat; reflexivity|]. rewrite Hp. discriminate.
    + split.
      * exists (List.length sent). rewrite Ht, map_app.
        rewrite <- (length_map (trigger service) sent), firstn_app, Nat.sub_diag.
        rewrite firstn_all. cbn [firstn]. rewrite app_nil_r. reflexivity.
      * rewrite Hp. destruct pending; [|discriminate].
        intros _. rewrite Ht, app_nil_r. reflexivity.
Qed.

(** C5, where the code departs from it.  Cancel the context while the
    goroutine sleeps its jitter and let the loop return: when the sleep
    ends the goroutine starts its round and blocks on the send for the
    first interface.  From there no move changes anything, so it never
    reaches its end.  And if the loop is still receiving, the queries of
    the round are handed over although the context is cancelled. *)
Theorem cancelled_goroutine_still_sends
  (continuous : bool) (r : Z) (i : Interface) (rest : list Interface) :
  MulticastInterfaces ifaces = i :: rest ->
  let blocked :=
    mkSystem (mkSched (AtSend (i :: rest)) Backoff.loop0) true false in
  moves continuous service ifaces (system0 r)
    [Cancel; LoopReturns; Goroutine Slept] = Some (blocked, [])
  /\ point (sched blocked) <> Exited
  /\ (forall ms y qs,
        moves continuous service ifaces blocked ms = Some (y, qs) ->
        y = blocked /\ qs = [])
  /\ (exists y,
        moves continuous service ifaces (system0 r)
          [Cancel; Goroutine Slept; Goroutine Handed]
        = Some (y, [trigger service i])
        /\ cancelled y = true).
Proof.
  intros Ht blocked.
  assert (startQuery continuous ifaces Backoff.loop0
          = mkSched (AtSend (i :: rest)) Backoff.loop0) as Hq
    by (unfold startQuery; rewrite Ht; reflexivity).
  split; [|split; [|split]].
  - cbn [moves move system0 sched cancelled loopRunning andb resume sched0
         point loop]. rewrite Hq. reflexivity.
  - discriminate.
  - induction ms as [|m ms IH]; intros y qs.
    + cbn. intros E. injection E as <- <-. split; reflexivity.
    + cbn [moves].
      assert (move continuous service ifaces blocked m = Some (blocked, [])
              \/ move continuous service ifaces blocked m = None) as [E|E]
        by (destruct m as [| |[]]; cbn; auto).
      * rewrite E.
        destruct (moves continuous service ifaces blocked ms)
          as [[y' qs']|] eqn:E'; [|discriminate].
        intros H. injection H as <- <-. destruct (IH y' qs' eq_refl) as [-> ->].
        split; reflexivity.
      * rewrite E. discriminate.
  - cbn [moves move system0 sched cancelled loopRunning andb resume sched0
         point loop]. rewrite Hq. cbn [resume point loop].
    destruct rest; eexists; (split; [reflexivity|]).
    + unfold afterQuery. destruct continuous; [|reflexivity].
      destruct (Backoff.afterQuery Backoff.loop0); reflexivity.
    + reflexivity.
Qed.

End SchedulerClaims.

(** ** The model at work on a concrete package *)

Section Scenarios.

Import Demo.

Let session (evs : list Event) : list Effect :=
  callbacks (snd (fst (lookupTypeLoop (P := package) http initial evs))).

(** The scenario of the spec: the first message brings [foo] on [en0], the
    second brings it again with other data, the third comes without it. *)
Example foo_comes_stays_and_goes :
  session [RecvMessage m1] = [CallAdd fooEntry]
  /\ session [RecvMessage m1; RecvMessage m2] = [CallAdd fooEntry]
  /\ session [RecvMessage m1; RecvMessage m2; RecvMessage m3]
     = [CallAdd fooEntry; CallRmv fooEntry].
Proof. repeat split. Qed.

Example first_delays :
  Backoff.delays 3 Backoff.loop0
  = Some [1 * GoTime.Second; 2 * GoTime.Second; 4 * GoTime.Second].
Proof. reflexivity. Qed.

(** Without the guard of line 114 the shift alone would give a zero delay
    at tick 65; the loop never evaluates it there. *)
Example unguarded_shift_at_64 :
  Backoff.nextInterval 0 64 = Some 0
  /\ Backoff.nextInterval GoTime.Hour 64 = Some GoTime.Hour.
Proof. split; reflexivity. Qed.

Lemma known_answers_witness :
  Forall (fun v => GoInt.inRange (Service.TTL (fst v))) [(foo, 0)]
  /\ knownAnswers (P := package) http [(foo, 0)]
     = map (fun v => PTR (fst v)) (filter (included http) [(foo, 0)]).
Proof.
  assert (Forall (fun v => GoInt.inRange (Service.TTL (fst v))) [(foo, 0)]) as H.
  { constructor; [|constructor]. split; vm_compute; discriminate. }
  split; [exact H|].
  exact (proj1 (known_answers_are_the_fresh_matching_records
                  (P := package) http [(foo, 0)] H)).
Defined.

Lemma announced_entry_witness :
  In fooEntry (es (stateAfter (P := package) http [RecvMessage m1]))
  /\ exists st' out,
       handle http (stateAfter http [RecvMessage m1]) (RecvMessage m2)
       = Continue st' out
       /\ (forall x, In (CallAdd x) out ->
             BrowseEntry.key x <> BrowseEntry.key fooEntry)
       /\ (forall x, In (CallRmv x) out ->
             BrowseEntry.key x <> BrowseEntry.key fooEntry)
       /\ In fooEntry (es st')
       /\ (forall x, In x (es st') ->
             BrowseEntry.key x = BrowseEntry.key fooEntry -> x = fooEntry).
Proof.
  assert (In fooEntry (es (stateAfter (P := package) http [RecvMessage m1])))
    as He by (left; reflexivity).
  split; [exact He|].
  apply (announced_entry_is_left_as_it_was (P := package)
           http [RecvMessage m1] m2 fooEntry foo' He).
  - left. reflexivity.
  - reflexivity.
  - reflexivity.
  - reflexivity.
Defined.

Lemma cancelled_goroutine_witness :
  MulticastInterfaces (Package := package) ["en0"%string] = ["en0"%string]
  /\ moves (P := package) false http ["en0"%string] (system0 0)
       [Cancel; LoopReturns; Goroutine Slept]
     = Some (mkSystem (mkSched (AtSend ["en0"%string]) Backoff.loop0) true false,
             []).
Proof.
  split; [reflexivity|].
  exact (proj1 (cancelled_goroutine_still_sends (P := package)
                  http ["en0"%string] false 0 "en0"%string [] eq_refl)).
Defined.

End Scenarios.

(** ** Whole sessions *)

Section Sessions.

Context {P : Package}.

Variable service : string.

Lemma loop_turn st ev rest :
  lookupTypeLoop service st (ev :: rest)
  = match handle service st ev with
    | Return err => (st, [], Some err)
    | Continue st' out =>
        (fst (fst (lookupTypeLoop service st' rest)),
         out ++ snd (fst (lookupTypeLoop service st' rest)),
         snd (lookupTypeLoop service st' rest))
    end.
Proof.
  cbn [lookupTypeLoop]. destruct (handle service st ev); [|reflexivity].
  destruct (lookupTypeLoop service st0 rest) as [[st'' out'] r]. reflexivity.
Qed.

Lemma handle_query_eq st q clock sendErr :
  exists out,
    handle service st (RecvQuery q clock sendErr) = Continue st out
    /\ added out = [] /\ removed out = [] /\ callbacks out = []
    /\ sent out
       = [setAnswer q (knownAnswers service (visit clock (Services (cache st))))].
Proof.
  eexists. split; [reflexivity|]. destruct sendErr; repeat split.
Qed.

Lemma added_app out out' : added (out ++ out') = added out ++ added out'.
Proof. apply flat_map_app. Qed.

Lemma removed_app out out' :
  removed (out ++ out') = removed out ++ removed out'.
Proof. apply flat_map_app. Qed.

Lemma sent_app out out' : sent (out ++ out') = sent out ++ sent out'.
Proof. apply flat_map_app. Qed.

Lemma callbacks_app out out' :
  callbacks (out ++ out') = callbacks out ++ callbacks out'.
Proof. apply filter_app. Qed.

Lemma added_calls adds rmvs :
  added (map CallAdd adds ++ map CallRmv rmvs) = adds.
Proof.
  rewrite added_app.
  replace (added (map CallRmv rmvs)) with (@nil BrowseEntry.t)
    by (induction rmvs; [reflexivity | assumption]).
  rewrite app_nil_r. induction adds as [|a adds IH]; [reflexivity|].
  unfold added in *. cbn [map flat_map app]. f_equal. exact IH.
Qed.

Lemma removed_calls adds rmvs :
  removed (map CallAdd adds ++ map CallRmv rmvs) = rmvs.
Proof.
  rewrite removed_app.
  replace (removed (map CallAdd adds)) with (@nil BrowseEntry.t)
    by (induction adds; [reflexivity | assumption]).
  cbn [app]. induction rmvs as [|a rmvs IH]; [reflexivity|].
  unfold removed in *. cbn [map flat_map app]. f_equal. exact IH.
Qed.

Lemma sent_calls adds rmvs : sent (map CallAdd adds ++ map CallRmv rmvs) = [].
Proof.
  rewrite sent_app.
  replace (sent (map CallAdd adds)) with (@nil Query)
    by (induction adds; [reflexivity | assumption]).
  induction rmvs; [reflexivity | assumption].
Qed.

Lemma sent_message req adds rmvs :
  sent (LogReceiveMessage req :: map CallAdd adds ++ map CallRmv rmvs) = [].
Proof. apply (sent_calls adds rmvs). Qed.

Lemma removed_message req adds rmvs :
  removed (LogReceiveMessage req :: map CallAdd adds ++ map CallRmv rmvs)
  = rmvs.
Proof. apply (removed_calls adds rmvs). Qed.

Lemma sent_follow_triggers st evs :
  map iface (sent (snd (fst (lookupTypeLoop service st evs))))
  = map iface (triggersTaken evs)
  /\ map (fun q => dns.Msg_Question (msg q))
       (sent (snd (fst (lookupTypeLoop service st evs))))
     = map (fun q => dns.Msg_Question (msg q)) (triggersTaken evs).
Proof.
  revert st. induction evs as [|ev evs IH]; intros st; [repeat split|].
  rewrite loop_turn. destruct ev as [q clock sendErr|req|err].
  - destruct (handle_query_eq st q clock sendErr)
      as (out & -> & _ & _ & _ & Hs).
    cbn [fst snd triggersTaken]. rewrite sent_app, Hs.
    destruct (IH st) as (E1 & E2).
    cbn [app map setAnswer iface msg dns.Msg_Question].
    rewrite E1, E2. repeat split.
  - rewrite handle_message_eq. cbn [fst snd triggersTaken].
    rewrite sent_app, sent_message. apply IH.
  - repeat split.
Qed.

Lemma kept_and_gone svcs es :
  Permutation es (filter (inSnapshot svcs) es ++ gone svcs es).
Proof.
  unfold gone. induction es as [|e es IH]; [constructor|].
  cbn [filter]. destruct (inSnapshot svcs e); cbn [negb app].
  - constructor. assumption.
  - apply Permutation_cons_app. assumption.
Qed.



Lemma session_balance evs st :
  Permutation
    (es st ++ added (snd (fst (lookupTypeLoop service st evs))))
    (es (fst (fst (lookupTypeLoop service st evs)))
       ++ removed (snd (fst (lookupTypeLoop service st evs)))).
Proof.
  revert st. induction evs as [|ev evs IH]; intros st.
  - apply Permutation_refl.
  - rewrite loop_turn. destruct ev as [q clock sendErr|req|err].
    + destruct (handle_query_eq st q clock sendErr) as (out & -> & Ha & Hr & _).
      cbn [fst snd]. rewrite added_app, removed_app, Ha, Hr. apply IH.
    + rewrite handle_message_eq. cbn [fst snd].
      set (svcs := Services (UpdateFrom (cache st) req)).
      set (adds := unannounced (es st) (candidates service svcs)).
      match goal with
      | |- context [lookupTypeLoop service ?s evs] =>
          specialize (IH s); set (L := lookupTypeLoop service s evs) in *
      end.
      cbn [es] in IH.
      change (LogReceiveMessage req
                :: map CallAdd adds ++ map CallRmv (gone svcs (es st)))
        with ([LogReceiveMessage req]
                ++ (map CallAdd adds ++ map CallRmv (gone svcs (es st)))).
      rewrite added_app, removed_app.
      rewrite (added_app [_]), (removed_app [_]), added_calls, removed_calls.
      cbn [added removed flat_map app].
      rewrite (Permutation_app_comm (es (fst (fst L)))).
      rewrite <- app_assoc.
      rewrite <- (Permutation_app_comm (es (fst (fst L)))), <- IH.
      rewrite (kept_and_gone svcs (es st)) at 1.
      rewrite <- !app_assoc. apply Permutation_app_swap_app.
    + cbn [handle fst snd]. apply Permutation_refl.
Qed.

End Sessions.

Section SessionProperties.

Context {P : Package}.

Variable service : string.


(** X2.  In every state the loop reaches, each entry in [es] carries the
    fully-qualified name of some record in the snapshot of the cache as it
    then is. *)
Theorem announced_entries_are_in_the_cache
  (evs : list Event) (e : BrowseEntry.t) :
  In e (es (stateAfter service evs)) ->
  exists srv,
    In srv (Services (cache (stateAfter service evs)))
    /\ Service.ServiceInstanceName srv = BrowseEntry.ServiceInstanceName e.
Proof.
  assert (forall l st,
            (forall x, In x (es st) -> inSnapshot (Services (cache st)) x = true) ->
            forall x, In x (es (fst (fst (lookupTypeLoop service st l)))) ->
              inSnapshot
                (Services (cache (fst (fst (lookupTypeLoop service st l))))) x
              = true) as H.
  { induction l as [|ev l IH]; intros st Hst; [exact Hst|].
    rewrite loop_turn. destruct ev as [q clock sendErr|req|err].
    - cbn [handle fst snd]. apply IH. assumption.
    - rewrite handle_message_eq. cbn [fst snd]. apply IH. cbn [es cache].
      intros x Hx. apply in_app_iff in Hx as [Hx|Hx].
      + apply filter_In in Hx. tauto.
      + apply unannounced_sound in Hx as [Hx _].
        apply candidates_inSnapshot in Hx. assumption.
    - cbn [handle fst snd]. assumption. }
  intros He. specialize (H evs initial (fun x (F : In x []) => match F with end) e He).
  unfold inSnapshot in H. apply existsb_exists in H as (srv & Hs & E).
  apply String.eqb_eq in E. exists srv. split; assumption.
Qed.

(** X3.  Over any session the entries [add] was called with are, up to
    order, the entries now in [es] together with those [rmv] was called
    with: nothing is removed that was not added, and never more often. *)
Theorem added_entries_are_announced_or_removed (evs : list Event) :
  Permutation (added (effectsOf service evs))
    (es (stateAfter service evs) ++ removed (effectsOf service evs))
  /\ (List.length (removed (effectsOf service evs))
      <= List.length (added (effectsOf service evs)))%nat
  /\ (forall e, In e (removed (effectsOf service evs)) ->
                In e (added (effectsOf service evs))).
Proof.
  pose proof (session_balance service evs initial) as Hp.
  cbn [initial es app] in Hp. fold (effectsOf service evs) in Hp.
  fold (stateAfter service evs) in Hp.
  split; [exact Hp|]. split.
  - rewrite (Permutation_length Hp), length_app. lia.
  - intros e He. apply (Permutation_in e (Permutation_sym Hp)).
    apply in_app_iff. right. assumption.
Qed.

(** X4.  Query turns, sent well or not, leave no trace in what the caller
    sees: a session reaches the state, makes the callbacks and returns the
    value of the same session without them. *)
Theorem query_turns_leave_the_view_alone (st : State) (evs : list Event) :
  fst (fst (lookupTypeLoop service st evs))
  = fst (fst (lookupTypeLoop service st (dropQueries evs)))
  /\ callbacks (snd (fst (lookupTypeLoop service st evs)))
     = callbacks (snd (fst (lookupTypeLoop service st (dropQueries evs))))
  /\ snd (lookupTypeLoop service st evs)
     = snd (lookupTypeLoop service st (dropQueries evs)).
Proof.
  revert st. induction evs as [|ev evs IH]; intros st; [repeat split|].
  destruct ev as [q clock sendErr|req|err].
  - change (dropQueries (RecvQuery q clock sendErr :: evs))
      with (dropQueries evs).
    rewrite loop_turn.
    destruct (handle_query_eq service st q clock sendErr)
      as (out & -> & _ & _ & Hc & _).
    cbn [fst snd]. rewrite callbacks_app, Hc. apply IH.
  - change (dropQueries (RecvMessage req :: evs))
      with (RecvMessage req :: dropQueries evs).
    rewrite !loop_turn, handle_message_eq. cbn [fst snd].
    rewrite !callbacks_app.
    match goal with
    | |- context [lookupTypeLoop service ?s evs] =>
        destruct (IH s) as (-> & -> & ->)
    end. repeat split.
  - repeat split.
Qed.

(** X5.  The loop passes to [conn.SendQuery] one query per query it took
    from [qs] before returning, in that order, on the interface and with
    the question of the query taken; a send that failed is not made
    again. *)
Theorem one_send_per_trigger (st : State) (evs : list Event) :
  let out := snd (fst (lookupTypeLoop service st evs)) in
  map iface (sent out) = map iface (triggersTaken evs)
  /\ map (fun q => dns.Msg_Question (msg q)) (sent out)
     = map (fun q => dns.Msg_Question (msg q)) (triggersTaken evs)
  /\ List.length (sent out) = List.length (triggersTaken evs).
Proof.
  cbn zeta. destruct (sent_follow_triggers service st evs) as [E1 E2].
  split; [exact E1|]. split; [exact E2|].
  rewrite <- (length_map iface (sent _)), E1. apply length_map.
Qed.

(** X6.  A message after which the snapshot is empty clears [es]: [rmv] is
    called for every entry that was announced, in the order of [es], and
    [add] for none. *)
Theorem empty_snapshot_removes_everything (st : State) (req : Request) :
  Services (UpdateFrom (cache st) req) = [] ->
  handle service st (RecvMessage req)
  = Continue (mkState (UpdateFrom (cache st) req) [])
      (LogReceiveMessage req :: map CallRmv (es st)).
Proof.
  intros H. rewrite handle_message_eq, H. cbn [candidates flat_map unannounced].
  unfold gone, inSnapshot. cbn [existsb negb].
  rewrite (filter_all (fun _ => true)) by reflexivity.
  replace (filter (fun _ : BrowseEntry.t => false) (es st)) with (@nil BrowseEntry.t)
    by (induction (es st); [reflexivity | assumption]).
  reflexivity.
Qed.

(** X7.  The removal pass looks at the fully-qualified name alone: of two
    announced entries with the same one, for instance the entries of one
    instance on two interfaces, a message turn calls [rmv] for both or for
    neither, and keeps both or neither. *)
Theorem entries_of_one_instance_go_together
  (st : State) (req : Request) (e1 e2 : BrowseEntry.t) :
  In e1 (es st) -> In e2 (es st) ->
  BrowseEntry.ServiceInstanceName e1 = BrowseEntry.ServiceInstanceName e2 ->
  exists st' out,
    handle service st (RecvMessage req) = Continue st' out
    /\ (In e1 (removed out) <-> In e2 (removed out))
    /\ (In e1 (es st') <-> In e2 (es st')).
Proof.
  intros H1 H2 E. eexists. eexists. split; [apply handle_message_eq|].
  set (svcs := Services (UpdateFrom (cache st) req)).
  set (adds := unannounced (es st) (candidates service svcs)).
  assert (inSnapshot svcs e1 = inSnapshot svcs e2) as Hs
    by (unfold inSnapshot; rewrite E; reflexivity).
  assert (forall e, In e (es st) -> ~ In e adds) as Hn.
  { intros e He Ha. apply unannounced_sound in Ha as [_ Ha]. apply Ha.
    apply in_map. assumption. }
  split.
  - rewrite removed_message. unfold gone. rewrite !filter_In, Hs. tauto.
  - cbn [es]. rewrite !in_app_iff, !filter_In, Hs.
    pose proof (Hn e1 H1). pose proof (Hn e2 H2). tauto.
Qed.

End SessionProperties.

(** ** The goroutine in both modes *)

Section Goroutine.

Context {P : Package}.

Import GoInt GoTime.

Variables (service : string) (ifaces : list string).

(** What line 116 and the check of line 117 compute for a counter. *)
Lemma nextInterval_low i c :
  i < Hour -> Backoff.nextInterval i c = Backoff.nextInterval 0 c.
Proof.
  intros H. unfold Backoff.nextInterval.
  destruct (Z.ltb_spec i Hour); [reflexivity | lia].
Qed.

Lemma nextInterval_table n :
  (n < 64)%nat ->
  Backoff.nextInterval 0 (Z.of_nat n)
  = Some (if Z.of_nat n <? 12 then 2 ^ Z.of_nat n * Second
          else if Z.of_nat n <? 55 then Hour else 0).
Proof.
  intros H.
  do 64 (destruct n as [|n]; [vm_compute; reflexivity|]). lia.
Qed.

Lemma nextInterval_closed i c :
  i < Hour -> 0 <= c ->
  Backoff.nextInterval i c
  = Some (if c <? 12 then 2 ^ c * Second else if c <? 55 then Hour else 0).
Proof.
  intros Hi Hc. rewrite nextInterval_low by assumption.
  destruct (Z.lt_ge_cases c 64) as [H|H].
  - rewrite <- (Z2Nat.id c) by assumption. apply nextInterval_table. lia.
  - unfold Backoff.nextInterval, shl64.
    destruct (Z.ltb_spec c 0); [lia|].
    destruct (Z.leb_spec 64 c); [|lia].
    destruct (Z.ltb_spec c 12); [lia|].
    destruct (Z.ltb_spec c 55); [lia|]. reflexivity.
Qed.

Lemma afterQuery_tickStart l :
  tickStart l ->
  exists l', Backoff.afterQuery l = Some l' /\ inSelect l'.
Proof.
  destruct l as [c i]. unfold tickStart, inSelect, Backoff.afterQuery.
  cbn [Backoff.counter Backoff.interval]. intros [->|[Hc Hi]].
  - unfold Backoff.nextInterval. rewrite Z.ltb_irrefl.
    eexists. split; [reflexivity|]. left. reflexivity.
  - rewrite nextInterval_closed by lia.
    eexists. split; [reflexivity|]. cbn [Backoff.counter Backoff.interval].
    destruct (Z.ltb_spec c 12).
    + right. split; [lia|].
      assert (2 ^ c <= 2 ^ 11) by (apply Z.pow_le_mono_r; lia).
      rewrite Hour_value, Second_value. lia.
    + destruct (Z.ltb_spec c 55); [left; reflexivity | lia].
Qed.

Lemma afterTimer_inSelect l : inSelect l -> tickStart (Backoff.afterTimer l).
Proof.
  destruct l as [c i]. unfold tickStart, inSelect, Backoff.afterTimer.
  cbn [Backoff.counter Backoff.interval]. intros [->|[Hc Hi]]; [left; reflexivity|].
  right. unfold add64. rewrite wrap64_id; [lia|].
  unfold inRange, minInt64, maxInt64. lia.
Qed.

Lemma afterQuery_continuous l :
  tickStart l ->
  continuousAt (afterQuery true l) /\ point (afterQuery true l) = AtSelect.
Proof.
  intros H. unfold afterQuery.
  destruct (afterQuery_tickStart l H) as (l' & -> & Hl'). split; [exact Hl' | reflexivity].
Qed.

Lemma startQuery_continuous l :
  tickStart l ->
  continuousAt (startQuery true ifaces l)
  /\ point (startQuery true ifaces l) <> Exited.
Proof.
  intros H. unfold startQuery.
  destruct (MulticastInterfaces ifaces).
  - destruct (afterQuery_continuous l H) as [Hc Hp]. split; [exact Hc|].
    rewrite Hp. discriminate.
  - split; [exact H | discriminate].
Qed.

Lemma tickStart_loop0 : tickStart Backoff.loop0.
Proof.
  right. cbn [Backoff.loop0 Backoff.counter Backoff.interval].
  rewrite Hour_value, Second_value. lia.
Qed.

Lemma continuousAt_resume s w s' qs :
  continuousAt s ->
  resume true service ifaces s w = Some (s', qs) ->
  continuousAt s' /\ (point s' = Exited -> w = SawDone).
Proof.
  destruct s as [p l]. unfold continuousAt at 1. unfold resume.
  cbn [point loop].
  destruct p as [d|[|i rest]| | |]; destruct w; try discriminate; intros H E.
  - injection E as <- <-. subst l.
    destruct (startQuery_continuous Backoff.loop0 tickStart_loop0) as [Hc Hp].
    split; [exact Hc | exact (fun F => False_ind _ (Hp F))].
  - destruct rest as [|j rest]; injection E as <- <-.
    + destruct (afterQuery_continuous l H) as [Hc Hp]. split; [exact Hc|].
      intros F. change (point (afterQuery true l) = Exited) in F.
      rewrite Hp in F. discriminate.
    + split; [exact H | discriminate].
  - injection E as <- <-.
    destruct (startQuery_continuous _ (afterTimer_inSelect l H)) as [Hc Hp].
    split; [exact Hc | exact (fun F => False_ind _ (Hp F))].
  - injection E as <- <-. split; [exact I | reflexivity].
Qed.

Lemma continuousAt_resumes ws s s' qs :
  continuousAt s ->
  resumes true service ifaces s ws = Some (s', qs) ->
  continuousAt s'
  /\ (point s' = Exited ->
      (ws = [] /\ point s = Exited) \/ exists ws', ws = ws' ++ [SawDone]).
Proof.
  revert s s' qs. induction ws as [|w ws IH]; intros s s' qs H.
  - cbn. intros E. injection E as <- <-. split; [exact H | tauto].
  - cbn [resumes].
    destruct (resume true service ifaces s w) as [[s1 q1]|] eqn:E1;
      [|discriminate].
    destruct (resumes true service ifaces s1 ws) as [[s2 q2]|] eqn:E2;
      [|discriminate].
    intros E. injection E as <- <-.
    destruct (continuousAt_resume s w s1 q1 H E1) as [H1 Hw].
    destruct (IH s1 s2 q2 H1 E2) as [H2 Hx]. split; [exact H2|].
    intros Hp. right. destruct (Hx Hp) as [[-> Hp1]|(ws' & ->)].
    + exists []. rewrite (Hw Hp1). reflexivity.
    + exists (w :: ws'). reflexivity.
Qed.

(** *** What has been handed over *)

Lemma rounds_S k :
  rounds service ifaces (S k)
  = rounds service ifaces k
      ++ map (trigger service) (MulticastInterfaces ifaces).
Proof.
  unfold rounds. induction k as [|k IH].
  - cbn. rewrite app_nil_r. reflexivity.
  - cbn [repeat List.concat] in *. rewrite IH at 1. rewrite app_assoc.
    reflexivity.
Qed.

Lemma handedAt_afterQuery c l qs :
  handedAt service ifaces (afterQuery c l) qs
  <-> exists k, qs = rounds service ifaces k.
Proof.
  unfold handedAt, afterQuery.
  destruct c; [destruct (Backoff.afterQuery l)|]; reflexivity.
Qed.

Lemma handedAt_startQuery c l k :
  handedAt service ifaces (startQuery c ifaces l) (rounds service ifaces k).
Proof.
  unfold startQuery.
  destruct (MulticastInterfaces ifaces) as [|i rest] eqn:E.
  - apply handedAt_afterQuery. exists k. reflexivity.
  - unfold handedAt. cbn [point]. exists k, []. rewrite E.
    split; [reflexivity|]. rewrite app_nil_r. reflexivity.
Qed.

Lemma handedAt_resume c s w s' qs qs' :
  handedAt service ifaces s qs ->
  resume c service ifaces s w = Some (s', qs') ->
  handedAt service ifaces s' (qs ++ qs').
Proof.
  destruct s as [p l]. unfold resume. cbn [point loop].
  destruct p as [d|[|i rest]| | |]; destruct w; try discriminate;
    unfold handedAt at 1; cbn [point]; intros H E.
  - injection E as <- <-. subst qs. apply (handedAt_startQuery c _ 0%nat).
  - destruct H as (k & served & Ht & ->).
    destruct rest as [|j rest]; injection E as <- <-.
    + apply handedAt_afterQuery. exists (S k).
      rewrite rounds_S, Ht, map_app, <- app_assoc. reflexivity.
    + unfold handedAt. cbn [point]. exists k, (served ++ [i]).
      split; [rewrite <- app_assoc; exact Ht | rewrite map_app, app_assoc; reflexivity].
  - destruct H as (k & ->). injection E as <- <-. rewrite app_nil_r.
    apply handedAt_startQuery.
  - destruct H as (k & ->). injection E as <- <-. rewrite app_nil_r.
    exists k. reflexivity.
Qed.

Lemma handedAt_resumes c ws s s' qs qs' :
  handedAt service ifaces s qs ->
  resumes c service ifaces s ws = Some (s', qs') ->
  handedAt service ifaces s' (qs ++ qs').
Proof.
  revert s s' qs qs'. induction ws as [|w ws IH]; intros s s' qs qs' H.
  - cbn. intros E. injection E as <- <-. rewrite app_nil_r. exact H.
  - cbn [resumes].
    destruct (resume c service ifaces s w) as [[s1 q1]|] eqn:E1;
      [|discriminate].
    destruct (resumes c service ifaces s1 ws) as [[s2 q2]|] eqn:E2;
      [|discriminate].
    intros E. injection E as <- <-. rewrite app_assoc.
    apply (IH s1); [|exact E2]. apply (handedAt_resume c s w); assumption.
Qed.

Lemma handedAt_shape s qs :
  handedAt service ifaces s qs ->
  exists k served pending,
    MulticastInterfaces ifaces = served ++ pending
    /\ qs = rounds service ifaces k ++ map (trigger service) served.
Proof.
  unfold handedAt. destruct (point s) as [d|pending| | |].
  - intros ->. exists 0%nat, [], (MulticastInterfaces ifaces). split; reflexivity.
  - intros (k & served & Ht & ->). exists k, served, pending. tauto.
  - intros (k & ->). exists k, [], (MulticastInterfaces ifaces).
    rewrite app_nil_r. split; reflexivity.
  - intros (k & ->). exists k, [], (MulticastInterfaces ifaces).
    rewrite app_nil_r. split; reflexivity.
  - intros (k & ->). exists k, [], (MulticastInterfaces ifaces).
    rewrite app_nil_r. split; reflexivity.
Qed.

End Goroutine.

Section GoroutineProperties.

Context {P : Package}.

Import GoInt GoTime.

Variables (service : string) (ifaces : list string).

(** X8.  What lines 116-121 give when the interval is still below one
    hour: a panic for a negative counter, [2^counter] seconds up to counter
    11, one hour from 12 to 54, and zero from 55 on, where the product has
    wrapped to nothing and the check of line 117 lets it through. *)
Theorem recomputed_interval_by_counter (i c : Z) :
  i < Hour ->
  (c < 0 -> Backoff.nextInterval i c = None)
  /\ (0 <= c ->
      Backoff.nextInterval i c
      = Some (if c <? 12 then 2 ^ c * Second
              else if c <? 55 then Hour else 0)).
Proof.
  intros Hi. split.
  - intros Hc. unfold Backoff.nextInterval, shl64.
    destruct (Z.ltb_spec i Hour); [|lia].
    destruct (Z.ltb_spec c 0); [reflexivity | lia].
  - apply nextInterval_closed. assumption.
Qed.

(** X9.  In continuous mode the goroutine never panics on its shift, and
    if it has come to its end, the last thing that resumed it was the
    [ctx.Done()] case of the select at line 128. *)
Theorem continuous_goroutine_ends_only_on_done
  (r : Z) (ws : list Wake) (s : Sched) (qs : list Query) :
  resumes true service ifaces (sched0 r) ws = Some (s, qs) ->
  point s <> Panicked
  /\ (point s = Exited -> exists ws', ws = ws' ++ [SawDone]).
Proof.
  intros E.
  assert (continuousAt (sched0 r)) as H0 by reflexivity.
  destruct (continuousAt_resumes service ifaces ws _ _ _ H0 E) as [H Hx].
  split.
  - unfold continuousAt in H. intros F. rewrite F in H. exact H.
  - intros Hp. destruct (Hx Hp) as [[_ F]|Hw]; [discriminate F | exact Hw].
Qed.

(** X10.  In either mode, what the goroutine has handed over at any moment
    is some number of whole rounds, one query per target interface in the
    order [MulticastInterfaces] lists them, followed by the beginning of
    the round under way. *)
Theorem queries_come_in_whole_rounds
  (continuous : bool) (r : Z) (ws : list Wake) (s : Sched) (qs : list Query) :
  resumes continuous service ifaces (sched0 r) ws = Some (s, qs) ->
  exists k served pending,
    MulticastInterfaces ifaces = served ++ pending
    /\ qs = rounds service ifaces k ++ map (trigger service) served.
Proof.
  intros E. apply (handedAt_shape service ifaces s).
  assert (handedAt service ifaces (sched0 r) []) as H0 by reflexivity.
  exact (handedAt_resumes service ifaces continuous ws _ _ _ _ H0 E).
Qed.

(** X11.  When there is no multicast interface the goroutine hands over no
    query, in either mode and however long it runs; in single-shot mode it
    is at its end as soon as the jitter has passed. *)
Theorem no_interface_no_query (r : Z) :
  MulticastInterfaces ifaces = [] ->
  (forall continuous ws s qs,
     resumes continuous service ifaces (sched0 r) ws = Some (s, qs) -> qs = [])
  /\ resumes false service ifaces (sched0 r) [Slept]
     = Some (mkSched Exited Backoff.loop0, []).
Proof.
  intros Ht. split.
  - intros continuous ws s qs E.
    assert (handedAt service ifaces (sched0 r) []) as H0 by reflexivity.
    pose proof (handedAt_resumes service ifaces continuous ws _ _ _ _ H0 E) as H.
    cbn [app] in H. apply handedAt_shape in H as (k & served & pending & Hs & ->).
    rewrite Ht in Hs. symmetry in Hs. apply app_eq_nil in Hs as [-> _].
    unfold rounds. rewrite Ht. cbn [map]. rewrite app_nil_r.
    clear. induction k as [|k IH]; [reflexivity | exact IH].
  - cbn [resumes resume sched0 point loop]. unfold startQuery. rewrite Ht.
    reflexivity.
Qed.

Lemma exited_moves continuous ms y y' qs :
  point (sched y) = Exited ->
  moves continuous service ifaces y ms = Some (y', qs) ->
  qs = [] /\ point (sched y') = Exited.
Proof.
  revert y y' qs. induction ms as [|m ms IH]; intros y y' qs Hp.
  - cbn. intros E. injection E as <- <-. split; [reflexivity | exact Hp].
  - cbn [moves].
    assert (forall w, resume continuous service ifaces (sched y) w = None) as Hr.
    { intros w. unfold resume. rewrite Hp. destruct w; reflexivity. }
    assert (forall y1 q1,
              move continuous service ifaces y m = Some (y1, q1) ->
              q1 = [] /\ point (sched y1) = Exited) as Hm.
    { intros y1 q1. destruct m as [| |w]; cbn [move].
      - intros E. injection E as <- <-. split; [reflexivity | exact Hp].
      - destruct (cancelled y && loopRunning y); [|discriminate].
        intros E. injection E as <- <-. split; [reflexivity | exact Hp].
      - rewrite Hr. destruct w, (loopRunning y), (cancelled y); discriminate. }
    destruct (move continuous service ifaces y m) as [[y1 q1]|]; [|discriminate].
    destruct (Hm y1 q1 eq_refl) as [-> Hp1].
    destruct (moves continuous service ifaces y1 ms) as [[y2 q2]|] eqn:E2;
      [|discriminate].
    intros E. injection E as <- <-. apply (IH y1 y2 q2 Hp1 E2).
Qed.

(** X12.  Once the context is cancelled, a goroutine waiting in the select
    of line 124 can take the [ctx.Done()] case; it is then at its end, and
    whatever moves follow, it hands over no further query. *)
Theorem done_in_backoff_wait_ends_goroutine (continuous : bool) (y : System) :
  point (sched y) = AtSelect ->
  cancelled y = true ->
  exists y',
    move continuous service ifaces y (Goroutine SawDone) = Some (y', [])
    /\ point (sched y') = Exited
    /\ (forall ms y'' qs,
          moves continuous service ifaces y' ms = Some (y'', qs) ->
          qs = [] /\ point (sched y'') = Exited).
Proof.
  intros Hp Hc. cbn [move]. rewrite Hc. unfold resume. rewrite Hp.
  eexists. split; [reflexivity|]. split; [reflexivity|].
  intros ms y'' qs. apply exited_moves. reflexivity.
Qed.

End GoroutineProperties.

(** ** Known answers over time *)

Section KnownAnswerProperties.

Context {P : Package}.

Import GoInt GoTime.

Lemma fresh_earlier now now' srv :
  now <= now' -> fresh now' srv = true -> fresh now srv = true.
Proof.
  unfold fresh, Until, Sub. intros H.
  destruct (Z.gtb_spec
              (Z.max minInt64 (Z.min maxInt64 (Service.expiration srv - now')))
              (div64 (Service.TTL srv) 2)); [|discriminate].
  intros _.
  destruct (Z.gtb_spec
              (Z.max minInt64 (Z.min maxInt64 (Service.expiration srv - now)))
              (div64 (Service.TTL srv) 2)); [reflexivity | lia].
Qed.

Lemma fresh_expired now srv :
  0 <= Service.TTL srv <= maxInt64 ->
  Service.expiration srv <= now ->
  fresh now srv = false.
Proof.
  intros Ht He.
  assert (inRange (Service.TTL srv)) as Hr
    by (unfold inRange, minInt64, maxInt64 in *; lia).
  rewrite fresh_spec by assumption.
  pose proof (Z.quot_pos (Service.TTL srv) 2 ltac:(lia) ltac:(lia)).
  destruct (Z.gtb_spec (Service.expiration srv - now)
              (Z.quot (Service.TTL srv) 2)); [lia | reflexivity].
Qed.

(** X13.  A record that the filter leaves out of the known answers at one
    reading of the clock is left out at every later reading, for any TTL
    and expiration, as long as the record is the same: the saturation of
    [time.Until] never brings it back. *)
Theorem stale_record_stays_out
  (service : string) (srv : Service.t) (now now' : Time) :
  now <= now' ->
  knownAnswers service [(srv, now)] = [] ->
  knownAnswers service [(srv, now')] = [].
Proof.
  intros H. cbn [knownAnswers].
  destruct (ServiceName srv =? service)%string; cbn [negb]; [|reflexivity].
  destruct (fresh now' srv) eqn:E; [|reflexivity].
  rewrite (fresh_earlier now now' srv H E). discriminate.
Qed.

(** X14.  The known answers of a query hold no record of another service
    and no record that has expired: over a snapshot in which every record
    either has another service name or has a TTL that is not negative and
    an expiration that is not after the clock reading, the list is
    empty. *)
Theorem expired_and_foreign_records_are_not_known_answers
  (service : string) (visits : list (Service.t * Time)) :
  Forall (fun v =>
            ServiceName (fst v) <> service
            \/ (0 <= Service.TTL (fst v) <= maxInt64
                /\ Service.expiration (fst v) <= snd v)) visits ->
  knownAnswers service visits = [].
Proof.
  induction 1 as [|[srv now] rest Hv _ IH]; [reflexivity|].
  cbn [knownAnswers fst snd] in *.
  destruct (String.eqb_spec (ServiceName srv) service) as [E|E]; cbn [negb];
    [|exact IH].
  destruct Hv as [Hv|[Ht He]]; [contradiction|].
  rewrite (fresh_expired now srv Ht He). exact IH.
Qed.

End KnownAnswerProperties.

(** ** Fully-qualified names *)

Section Names.

Lemma list_ascii_of_append (a b : string) :
  list_ascii_of_string (a ++ b)
  = (list_ascii_of_string a ++ list_ascii_of_string b)%list.
Proof.
  induction a as [|c a IH]; [reflexivity|]. cbn. rewrite IH. reflexivity.
Qed.

Lemma append_inv_tail (a b t : string) :
  (a ++ t)%string = (b ++ t)%string -> a = b.
Proof.
  intros H. apply (f_equal list_ascii_of_string) in H.
  rewrite !list_ascii_of_append in H. apply app_inv_tail in H.
  rewrite <- (string_of_list_ascii_of_string a),
          <- (string_of_list_ascii_of_string b), H. reflexivity.
Qed.

(** X15.  Among entries of one service type and domain the fully-qualified
    name of lines 74-76 tells instance names apart: two such entries with
    the same fully-qualified name have the same instance name. *)
Theorem instance_name_is_read_off_the_full_name (e e' : BrowseEntry.t) :
  BrowseEntry.Type_ e = BrowseEntry.Type_ e' ->
  BrowseEntry.Domain e = BrowseEntry.Domain e' ->
  BrowseEntry.ServiceInstanceName e = BrowseEntry.ServiceInstanceName e' ->
  BrowseEntry.Name e = BrowseEntry.Name e'.
Proof.
  unfold BrowseEntry.ServiceInstanceName. intros -> ->.
  apply append_inv_tail.
Qed.

End Names.

(** ** The order of the callbacks *)

Section Alternation.

Context {P : Package}.

Variable service : string.

Lemma sameKey_iff k k' : sameKey k k' = true <-> k = k'.
Proof.
  destruct k as [a b], k' as [a' b']. unfold sameKey. cbn [fst snd].
  rewrite andb_true_iff, !String.eqb_eq. split.
  - intros [-> ->]. reflexivity.
  - intros E. injection E as -> ->. split; reflexivity.
Qed.

Lemma in_dropKey k x live :
  In k (filter (fun k0 => negb (sameKey k0 x)) live) <-> In k live /\ k <> x.
Proof.
  rewrite filter_In, negb_true_iff.
  pose proof (sameKey_iff k x) as H.
  destruct (sameKey k x); intuition congruence.
Qed.

Lemma alternating_ext out :
  forall live live',
    (forall k, In k live <-> In k live') ->
    alternating live out -> alternating live' out.
Proof.
  induction out as [|x out IH]; intros live live' H; [trivial|].
  destruct x; cbn [alternating]; try (apply IH; assumption).
  - intros [Hn Ha]. split; [rewrite <- H; assumption|].
    apply (IH (BrowseEntry.key e :: live)); [|assumption].
    intros k. cbn [In]. rewrite H. reflexivity.
  - intros [Hi Ha]. split; [rewrite <- H; assumption|].
    apply (IH (filter (fun k => negb (sameKey k (BrowseEntry.key e))) live));
      [|assumption].
    intros k. rewrite !in_dropKey, H. reflexivity.
Qed.

Lemma alternating_adds adds :
  forall live rest,
    dedup adds ->
    (forall a, In a adds -> ~ In (BrowseEntry.key a) live) ->
    (forall live',
       (forall k, In k live' <-> In k live \/ In k (map BrowseEntry.key adds)) ->
       alternating live' rest) ->
    alternating live (map CallAdd adds ++ rest).
Proof.
  unfold dedup. induction adds as [|a adds IH]; intros live rest Hd Hn Hk.
  - apply Hk. intros k. cbn. tauto.
  - cbn [map app alternating] in *. inversion Hd as [|x xs Hx Hd']; subst.
    split; [apply Hn; left; reflexivity|].
    apply IH; [assumption| |].
    + intros b Hb [E|F].
      * apply Hx. rewrite E. apply in_map. assumption.
      * apply (Hn b); [right; assumption | assumption].
    + intros live' H. apply Hk. intros k. rewrite H. cbn [In]. tauto.
Qed.

Lemma alternating_rmvs rmvs :
  forall live rest,
    dedup rmvs ->
    (forall g, In g rmvs -> In (BrowseEntry.key g) live) ->
    (forall live',
       (forall k, In k live'
                  <-> In k live /\ ~ In k (map BrowseEntry.key rmvs)) ->
       alternating live' rest) ->
    alternating live (map CallRmv rmvs ++ rest).
Proof.
  unfold dedup. induction rmvs as [|g rmvs IH]; intros live rest Hd Hi Hk.
  - apply Hk. intros k. cbn. tauto.
  - cbn [map app alternating] in *. inversion Hd as [|x xs Hx Hd']; subst.
    split; [apply Hi; left; reflexivity|].
    apply IH; [assumption| |].
    + intros b Hb. apply in_dropKey. split; [apply Hi; right; assumption|].
      intros E. apply Hx. rewrite <- E. apply in_map. assumption.
    + intros live' H. apply Hk. intros k. rewrite H, in_dropKey. cbn [In].
      intuition congruence.
Qed.

Lemma alternating_session evs :
  forall st live,
    dedup (es st) ->
    (forall k, In k live <-> In k (map BrowseEntry.key (es st))) ->
    alternating live (snd (fst (lookupTypeLoop service st evs))).
Proof.
  induction evs as [|ev evs IH]; intros st live Hd Hl; [exact I|].
  rewrite loop_turn. destruct ev as [q clock sendErr|req|err].
  - cbn [handle fst snd]. destruct sendErr; cbn [app alternating];
      apply IH; assumption.
  - rewrite handle_message_eq. cbn [fst snd].
    set (svcs := Services (UpdateFrom (cache st) req)).
    set (adds := unannounced (es st) (candidates service svcs)).
    set (st' := mkState (UpdateFrom (cache st) req)
                  (filter (inSnapshot svcs) (es st) ++ adds)).
    cbn [app alternating]. rewrite <- app_assoc.
    assert (forall a, In a adds ->
              ~ In (BrowseEntry.key a) (map BrowseEntry.key (es st))) as Hnew
      by (intros a Ha; apply unannounced_sound in Ha; tauto).
    assert (dedup (gone svcs (es st))) as Hdg.
    { unfold gone. rewrite <- (app_nil_r (filter _ (es st))).
      apply dedup_filter_app. rewrite app_nil_r. assumption. }
    apply alternating_adds.
    + apply unannounced_nodup.
    + intros a Ha. rewrite Hl. apply Hnew. assumption.
    + intros live1 H1. apply alternating_rmvs.
      * assumption.
      * intros g Hg. apply H1. left. apply Hl. apply in_map.
        unfold gone in Hg. apply filter_In in Hg. tauto.
      * intros live2 H2. apply (IH st').
        -- apply dedup_filter_app, unannounced_dedup. assumption.
        -- intros k. rewrite H2, H1, Hl. unfold st'. cbn [es].
           rewrite map_app, in_app_iff, !in_map_iff. unfold gone. split.
           ++ intros [[(x & <- & Hx)|(x & <- & Hx)] Hng].
              ** left. exists x. split; [reflexivity|]. apply filter_In.
                 split; [assumption|].
                 destruct (inSnapshot svcs x) eqn:E; [reflexivity|].
                 exfalso. apply Hng. exists x. split; [reflexivity|].
                 apply filter_In. rewrite E. tauto.
              ** right. exists x. tauto.
           ++ intros [(x & <- & Hx)|(x & <- & Hx)].
              ** apply filter_In in Hx as [Hx Hkeep].
                 split; [left; exists x; tauto|].
                 intros (y & E & Hy). apply filter_In in Hy as [Hy Hgone].
                 rewrite (dedup_inj (es st) y x Hd Hy Hx E), Hkeep in Hgone.
                 discriminate.
              ** split; [right; exists x; tauto|].
                 intros (y & E & Hy). apply filter_In in Hy as [Hy _].
                 apply (Hnew x Hx). rewrite <- E. apply in_map. assumption.
  - exact I.
Qed.

(** X16.  Over any session, and for each (instance name, interface) pair,
    the calls of [add] and [rmv] alternate and begin with [add]: [add] is
    never called for a pair that is announced, [rmv] never for one that is
    not. *)
Theorem callbacks_alternate_per_pair (evs : list Event) :
  alternating [] (effectsOf service evs).
Proof.
  apply alternating_session; [constructor|]. intros k. reflexivity.
Qed.

End Alternation.

(** ** The goroutine and the loop together *)

Section OnTheWire.

Context {P : Package}.

Variables (service : string) (ifaces : list string).

Lemma iface_rounds k :
  map iface (rounds service ifaces k)
  = List.concat (repeat (MulticastInterfaces ifaces) k).
Proof.
  unfold rounds. induction k as [|k IH]; [reflexivity|].
  cbn [repeat List.concat]. rewrite map_app, IH, map_map. cbn [trigger iface].
  rewrite map_id. reflexivity.
Qed.

Lemma question_rounds k :
  Forall (fun q => dns.Msg_Question (msg q)
                   = [dns.mkQuestion service dns.TypePTR dns.ClassINET])
    (rounds service ifaces k).
Proof.
  unfold rounds. induction k as [|k IH]; [constructor|].
  cbn [repeat List.concat]. apply Forall_app. split; [|exact IH].
  apply Forall_forall. intros q Hq. apply in_map_iff in Hq as (i & <- & _).
  reflexivity.
Qed.

(** X17.  When the queries the loop took from [qs] are the ones the
    goroutine handed over, the queries passed to [conn.SendQuery] go out on
    the target interfaces round after round, in the order
    [MulticastInterfaces] lists them, and each asks the PTR question of
    class IN for the browsed service. *)
Theorem sent_queries_follow_the_rounds
  (continuous : bool) (r : Z) (ws : list Wake) (s : Sched)
  (st : State) (evs : list Event) :
  resumes continuous service ifaces (sched0 r) ws
  = Some (s, triggersTaken evs) ->
  let out := snd (fst (lookupTypeLoop service st evs)) in
  (exists k served pending,
     MulticastInterfaces ifaces = served ++ pending
     /\ map iface (sent out)
        = List.concat (repeat (MulticastInterfaces ifaces) k) ++ served)
  /\ Forall (fun q => dns.Msg_Question (msg q)
                      = [dns.mkQuestion service dns.TypePTR dns.ClassINET])
       (sent out).
Proof.
  intros E out. destruct (sent_follow_triggers service st evs) as [E1 E2].
  fold out in E1, E2.
  assert (handedAt service ifaces (sched0 r) []) as H0 by reflexivity.
  pose proof (handedAt_resumes service ifaces continuous ws _ _ _ _ H0 E) as H.
  cbn [app] in H. apply handedAt_shape in H as (k & served & pending & Ht & Hq).
  split.
  - exists k, served, pending. split; [exact Ht|].
    rewrite E1, Hq, map_app, iface_rounds, map_map. cbn [trigger iface].
    rewrite map_id. reflexivity.
  - assert (Forall (fun q => dns.Msg_Question (msg q)
                             = [dns.mkQuestion service dns.TypePTR dns.ClassINET])
              (triggersTaken evs)) as Hf.
    { rewrite Hq. apply Forall_app. split; [apply question_rounds|].
      apply Forall_forall. intros q Hin.
      apply in_map_iff in Hin as (i & <- & _). reflexivity. }
    clear - E2 Hf. revert E2 Hf. generalize (triggersTaken evs) as l.
    induction (sent out) as [|q qs IH]; intros l E2 Hf; [constructor|].
    destruct l as [|x l]; [discriminate|]. cbn [map] in E2.
    injection E2 as Eq E2. inversion Hf as [|y ys Hx Hl]; subst.
    constructor; [rewrite Eq; exact Hx | apply (IH l); assumption].
Qed.

End OnTheWire.

(** ** The further properties on the concrete package *)

Section MoreScenarios.

Import Demo.

Let after1 : State := stateAfter (P := package) http [RecvMessage m1].
Let after4 : State := stateAfter (P := package) http [RecvMessage m4].
Let onEn0 : list string := ["en0"%string].

Example bar_is_announced_per_interface :
  es after4 = [barEn0; barEn1]
  /\ callbacks (effectsOf http [RecvMessage m4; RecvMessage m3])
     = [CallAdd barEn0; CallAdd barEn1; CallRmv barEn0; CallRmv barEn1].
Proof. split; reflexivity. Qed.


Lemma announced_entries_in_cache_witness :
  exists srv,
    In srv (Services (cache after1))
    /\ Service.ServiceInstanceName srv
       = BrowseEntry.ServiceInstanceName fooEntry.
Proof.
  apply (announced_entries_are_in_the_cache (P := package)
           http [RecvMessage m1] fooEntry).
  left. reflexivity.
Defined.

Lemma empty_snapshot_witness :
  handle http after1 (RecvMessage m3)
  = Continue (mkState (UpdateFrom (cache after1) m3) [])
      (LogReceiveMessage m3 :: map CallRmv (es after1)).
Proof.
  apply (empty_snapshot_removes_everything (P := package) http after1 m3).
  reflexivity.
Defined.

Lemma entries_go_together_witness :
  exists st' out,
    handle http after4 (RecvMessage m1) = Continue st' out
    /\ (In barEn0 (removed out) <-> In barEn1 (removed out))
    /\ (In barEn0 (es st') <-> In barEn1 (es st')).
Proof.
  apply (entries_of_one_instance_go_together (P := package)
           http after4 m1 barEn0 barEn1).
  - left. reflexivity.
  - right. left. reflexivity.
  - reflexivity.
Defined.

Lemma recomputed_interval_witness :
  (64 < 0 -> Backoff.nextInterval 0 64 = None)
  /\ (0 <= 64 ->
      Backoff.nextInterval 0 64
      = Some (if 64 <? 12 then 2 ^ 64 * GoTime.Second
              else if 64 <? 55 then GoTime.Hour else 0)).
Proof.
  apply (recomputed_interval_by_counter 0 64). reflexivity.
Defined.

Lemma continuous_goroutine_witness :
  point (mkSched (P := package) Exited (Backoff.mkLoop 0 GoTime.Second))
    <> Panicked
  /\ (point (mkSched (P := package) Exited (Backoff.mkLoop 0 GoTime.Second))
      = Exited ->
      exists ws', [Slept; Handed; SawDone] = ws' ++ [SawDone]).
Proof.
  apply (continuous_goroutine_ends_only_on_done (P := package)
           http onEn0 0 [Slept; Handed; SawDone] _ [q0]).
  reflexivity.
Defined.

Lemma whole_rounds_witness :
  exists k served pending,
    MulticastInterfaces (Package := package) onEn0 = served ++ pending
    /\ [q0; q0]
       = rounds http onEn0 k ++ map (trigger http) served.
Proof.
  apply (queries_come_in_whole_rounds (P := package) http onEn0 true 0
           [Slept; Handed; TimerFired; Handed]
           (mkSched AtSelect (Backoff.mkLoop 1 (2 * GoTime.Second)))).
  reflexivity.
Defined.

Lemma no_interface_witness :
  (forall continuous ws s qs,
     resumes (P := package) continuous http [] (sched0 0) ws = Some (s, qs) ->
     qs = [])
  /\ resumes (P := package) false http [] (sched0 0) [Slept]
     = Some (mkSched Exited Backoff.loop0, []).
Proof.
  apply (no_interface_no_query (P := package) http [] 0). reflexivity.
Defined.

Lemma done_in_backoff_wait_witness :
  exists y',
    move (P := package) true http onEn0
      (mkSystem (mkSched AtSelect (Backoff.mkLoop 0 GoTime.Second)) true true)
      (Goroutine SawDone) = Some (y', [])
    /\ point (sched y') = Exited
    /\ (forall ms y'' qs,
          moves true http onEn0 y' ms = Some (y'', qs) ->
          qs = [] /\ point (sched y'') = Exited).
Proof.
  apply (done_in_backoff_wait_ends_goroutine (P := package) http onEn0 true
           (mkSystem (mkSched AtSelect (Backoff.mkLoop 0 GoTime.Second))
              true true)); reflexivity.
Defined.

Lemma stale_record_witness :
  knownAnswers (P := package) http [(foo, 20 * GoTime.Second)] = [].
Proof.
  apply (stale_record_stays_out (P := package) http foo
           (10 * GoTime.Second) (20 * GoTime.Second)).
  - vm_compute. discriminate.
  - reflexivity.
Defined.

Lemma expired_records_witness :
  knownAnswers (P := package) http
    [(foo, 60 * GoTime.Second); (bar, 300 * GoTime.Second)] = [].
Proof.
  apply (expired_and_foreign_records_are_not_known_answers (P := package)).
  constructor; [|constructor; [|constructor]]; right; cbn [fst snd];
    (split; [split|]); vm_compute; discriminate.
Defined.

Lemma instance_name_witness :
  BrowseEntry.Name fooEntry = BrowseEntry.Name (newEntry foo' "en0" [ip2]).
Proof.
  apply (instance_name_is_read_off_the_full_name
           fooEntry (newEntry foo' "en0" [ip2])); reflexivity.
Defined.

Lemma sent_queries_witness :
  let out :=
    snd (fst (lookupTypeLoop (P := package) http initial
                [RecvQuery q0 (fun _ => 0) None])) in
  (exists k served pending,
     MulticastInterfaces (Package := package) onEn0 = served ++ pending
     /\ map iface (sent out)
        = List.concat (repeat (MulticastInterfaces onEn0) k) ++ served)
  /\ Forall (fun q => dns.Msg_Question (msg q)
                      = [dns.mkQuestion http dns.TypePTR dns.ClassINET])
       (sent out).
Proof.
  apply (sent_queries_follow_the_rounds (P := package) http onEn0 false 0
           [Slept; Handed] (mkSched Exited Backoff.loop0) initial
           [RecvQuery q0 (fun _ => 0) None]).
  reflexivity.
Defined.

End MoreScenarios.
